(** * The indexer's processing stage (package [processing]) and its neighbours

    A shallow embedding of

    - [docker/indexer/stages/processing]: [Stage.Run], the coordinator of the
      bounded worker pool, and [Stage.processGit], the body of one worker;
    - [tools/indexer-api-caller/caller.go]: [buildFileHashes], the same file
      walk as [processGit], written a second time;
    - [docker/indexer/storage/storage_test.go]: the fixtures of [TestNewDoc].

    Go strings are [string], byte slices are [list byte], an [error] is the
    text of its message ([None] is [nil]).  The closure that [filepath.Walk]
    calls mutates the captured slice [fileResults]; here the slice is threaded
    through the walk.  The goroutines of [Stage.Run] are a step relation over
    the state they share: the context, the input channel, the semaphore and
    the error channel. *)

From Stdlib Require Import List String Ascii Bool Arith ZArith Lia Permutation.
Import ListNotations.

Local Open Scope string_scope.
Local Open Scope list_scope.

(** ** Values shared by all packages *)

(** A Go [error] that is not [nil], by its message. *)
Definition Error : Type := string.

(** A Go call that returns [(value, error)]. *)
Inductive result (A : Type) : Type :=
| Ok (a : A)
| Err (e : Error).
Arguments Ok {A} a.
Arguments Err {A} e.

(** ** [path/filepath] *)

Module Filepath.

(** [os.IsPathSeparator] on the platform the indexer's image runs on. *)
Definition IsPathSeparator (c : ascii) : bool := Ascii.eqb c "/"%char.

(** The loop of [filepath.Ext]: [i] runs from the last byte down while
    [path[i]] is no separator, and [path[i:]] is returned at the first dot.
    [rpath] is [path[:i+1]] reversed and [suffix] is [path[i+1:]]. *)
Fixpoint extLoop (rpath : list ascii) (suffix : string) : string :=
  match rpath with
  | [] => ""
  | c :: rest =>
      if IsPathSeparator c then ""
      else if Ascii.eqb c "."%char then String c suffix
      else extLoop rest (String c suffix)
  end.

Definition Ext (path : string) : string :=
  extLoop (rev (list_ascii_of_string path)) "".

(** [filepath.Join(path, name)] where [Walk] calls it on a walk from a
    clean root: [path] is a clean path other than [.] and [/], [name] is
    the name of a directory entry, and the result of [Join], which cleans
    what it joins, is the two with a separator between them.  The walks of
    this file are walks from such a root (the private directory that
    [CopyFromBucket] makes, a directory given as [/tmp/abc] or [repo]); a
    root like [.], [./repo] or [/tmp/abc/] is outside them.  [JoinCleaned]
    below is [filepath.Join] on every path, and the two are proved to agree
    on the paths of such a walk. *)
Definition Join (path name : string) : string :=
  String.append path (String "/"%char name).

(** The elements of a path, between its separators. *)
Fixpoint elements (path : string) : list string :=
  match path with
  | EmptyString => [""]
  | String c rest =>
      if IsPathSeparator c then "" :: elements rest
      else match elements rest with
           | [] => [String c ""]
           | e :: es => String c e :: es
           end
  end.

(** One element in the loop of [filepath.Clean].  [out] holds the elements
    written so far, the last one first.  An empty element and [.] are
    dropped; [..] takes the last element away when there is one that is not
    itself [..], is dropped at the root, and is written otherwise. *)
Definition cleanElement (rooted : bool) (out : list string) (e : string)
  : list string :=
  if String.eqb e "" then out
  else if String.eqb e "." then out
  else if String.eqb e ".." then
    match out with
    | last :: before => if String.eqb last ".." then e :: out else before
    | [] => if rooted then [] else [e]
    end
  else e :: out.

(** [filepath.Clean(path)] on a system whose separator is the slash. *)
Definition Clean (path : string) : string :=
  match path with
  | EmptyString => "."
  | String c _ =>
      let rooted := IsPathSeparator c in
      let out := fold_left (cleanElement rooted) (elements path) [] in
      let body := String.concat "/" (rev out) in
      if rooted then String "/"%char body
      else if String.eqb body "" then "." else body
  end.

(** [filepath.Join(path, name)] on every pair of strings: the elements that
    follow the first non-empty one are joined by separators and the result
    is cleaned. *)
Definition JoinCleaned (path name : string) : string :=
  match path, name with
  | EmptyString, EmptyString => ""
  | EmptyString, _ => Clean name
  | _, _ => Clean (String.append path (String "/"%char name))
  end.

(** What [fs.FileInfo] tells the walk function. *)
Record FileInfo : Type := { Name : string; IsDir : bool }.

(** A directory tree as [Walk] meets it: [os.Lstat] does not follow symbolic
    links, so a link is a [File], whatever it points to.  The entries of a
    [Dir] are listed in the order of [readDirNames], which sorts them.  The
    name of an entry is what the directory lists: not empty, not [.] or
    [..], and without a separator. *)
#[local] Set Warnings "-register-all".
Inductive Node : Type :=
| File (name : string)
| Dir (name : string) (entries : list Node).

Definition nodeName (n : Node) : string :=
  match n with File name => name | Dir name _ => name end.

Definition Lstat (n : Node) : FileInfo :=
  match n with
  | File name => {| Name := name; IsDir := false |}
  | Dir name _ => {| Name := name; IsDir := true |}
  end.

(** [filepath.WalkFunc], with the state the closure captures made explicit. *)
Definition WalkFunc (S : Type) : Type := string -> FileInfo -> S -> result S.

(** [filepath.walk]: the function is called on the node, then, for a
    directory, the walk descends into each entry in turn and stops at the
    first error.  The walk functions of this repository never return
    [filepath.SkipDir], so every error ends the walk. *)
Fixpoint walk {S : Type} (walkFn : WalkFunc S) (path : string) (n : Node)
    (st : S) : result S :=
  match n with
  | File _ => walkFn path (Lstat n) st
  | Dir _ entries =>
      match walkFn path (Lstat n) st with
      | Err e => Err e
      | Ok st1 =>
          (fix each (ns : list Node) (st : S) : result S :=
             match ns with
             | [] => Ok st
             | c :: ns' =>
                 match walk walkFn (Join path (nodeName c)) c st with
                 | Err e => Err e
                 | Ok st' => each ns' st'
                 end
             end) entries st1
      end
  end.

(** [filepath.Walk(root, fn)] on a clean root that [os.Lstat] finds. *)
Definition Walk {S : Type} (root : string) (tree : Node) (walkFn : WalkFunc S)
    (st : S) : result S :=
  walk walkFn root tree st.

(** The calls [Walk] makes to its function, in order: the path and the
    [FileInfo] of each node.  (Used to state properties, not by the code.) *)
Fixpoint visited (path : string) (n : Node) : list (string * FileInfo) :=
  match n with
  | File _ => [(path, Lstat n)]
  | Dir _ entries =>
      (path, Lstat n) ::
      (fix each (ns : list Node) : list (string * FileInfo) :=
         match ns with
         | [] => []
         | c :: ns' => visited (Join path (nodeName c)) c ++ each ns'
         end) entries
  end.

End Filepath.

(** ** [strings] *)

Module Strings.

(** [strings.ReplaceAll(s, old, new)] for a non-empty [old]: the
    occurrences of [old] are found from the left and do not overlap.
    [skip] counts the bytes of a found occurrence still to be dropped. *)
Fixpoint replaceFrom (old new : string) (skip : nat) (s : string) : string :=
  match s with
  | EmptyString => EmptyString
  | String c s' =>
      match skip with
      | S k => replaceFrom old new k s'
      | O =>
          if String.prefix old s
          then String.append new (replaceFrom old new (String.length old - 1) s')
          else String c (replaceFrom old new 0 s')
      end
  end.

(** For an empty [old] Go puts [new] before every rune and at the end;
    runes are bytes here, which is Go's result on ASCII text. *)
Fixpoint insertEvery (new s : string) : string :=
  match s with
  | EmptyString => new
  | String c s' => String.append new (String c (insertEvery new s'))
  end.

Definition ReplaceAll (s old new : string) : string :=
  match old with
  | EmptyString => insertEvery new s
  | String _ _ => replaceFrom old new 0 s
  end.

End Strings.

(** ** The packages [shared] and [preparation], as [processing] uses them *)

Module Shared.

(** Modelled from the spec: the repository kinds of package [shared], whose
    source is not part of the indexer files at hand.  [Git] is the only kind
    the processing stage handles; every other value of the field is an
    [Other] kind. *)
Inductive RepoType : Type :=
| Git
| Other (tag : nat).

End Shared.

Module Git.

(** [git.CheckoutOptions] of the library go-git, by the fields a checkout
    request carries.  [Force] makes the checkout discard local changes. *)
Record CheckoutOptions : Type := {
  Hash : list Byte.byte;
  Branch : string;
  Create : bool;
  Force : bool;
  Keep : bool
}.

(** [plumbing.Master] *)
Definition Master : string := "refs/heads/master".

(** What [CheckoutOptions.Validate], which [Worktree.Checkout] calls on
    the options it is handed a pointer to, leaves in [Branch]: an empty
    [Branch] is filled with the default. *)
Definition defaultBranch (o : CheckoutOptions) : string :=
  if String.eqb (Branch o) "" then Master else Branch o.

End Git.

Module Preparation.

(** Modelled from the spec: [preparation.Result], the work item, by the
    fields that [processing] and the storage test read and write. *)
Record Result : Type := {
  Name : string;
  Commit : list Byte.byte;
  Type_ : Shared.RepoType;
  CheckoutOptions : Git.CheckoutOptions;
  FileExts : list string
}.

End Preparation.

(** ** Package [processing] *)

Module Processing.

Import Filepath.

(** [const workers = 25] *)
Definition workers : nat := 25.

(** [FileResult] holds the per file hash and path information. *)
Record FileResult : Type := {
  Path : string;
  HashType : string;
  Hash : list Byte.byte
}.

(** The assignment [repoInfo.CheckoutOptions.Force = true] on the work item
    that [repoInfo] points to. *)
Definition setForce (force : bool) (repoInfo : Preparation.Result)
  : Preparation.Result :=
  let o := Preparation.CheckoutOptions repoInfo in
  {| Preparation.Name := Preparation.Name repoInfo;
     Preparation.Commit := Preparation.Commit repoInfo;
     Preparation.Type_ := Preparation.Type_ repoInfo;
     Preparation.CheckoutOptions :=
       {| Git.Hash := Git.Hash o;
          Git.Branch := Git.Branch o;
          Git.Create := Git.Create o;
          Git.Force := force;
          Git.Keep := Git.Keep o |};
     Preparation.FileExts := Preparation.FileExts repoInfo |}.

(** A write to [CheckoutOptions.Branch] through the pointer that the work
    item holds. *)
Definition setBranch (branch : string) (repoInfo : Preparation.Result)
  : Preparation.Result :=
  let o := Preparation.CheckoutOptions repoInfo in
  {| Preparation.Name := Preparation.Name repoInfo;
     Preparation.Commit := Preparation.Commit repoInfo;
     Preparation.Type_ := Preparation.Type_ repoInfo;
     Preparation.CheckoutOptions :=
       {| Git.Hash := Git.Hash o;
          Git.Branch := branch;
          Git.Create := Git.Create o;
          Git.Force := Git.Force o;
          Git.Keep := Git.Keep o |};
     Preparation.FileExts := Preparation.FileExts repoInfo |}.

(** What a worker calls outside its package.  [ctx] is [ctx.Err()] at the
    time of the call.  [Checkout] leaves the working tree it returns in the
    directory; [ReadFile] reads it.  [tree.Checkout] is handed the pointer
    [repoInfo.CheckoutOptions] and go-git writes through it: [CheckoutBranch]
    is the [Branch] that the call leaves in the options of the work item
    (go-git fills in a default, see [Git.defaultBranch]; no other field is
    written).  [Store] is the [Storer] of the stage. *)
Record Env : Type := {
  md5_Sum : list Byte.byte -> list Byte.byte;
  CopyFromBucket : option Error -> string -> result string;
  PlainOpen : string -> option Error;
  Worktree : string -> option Error;
  Checkout : string -> Git.CheckoutOptions -> result Node;
  CheckoutBranch : string -> Git.CheckoutOptions -> string;
  ReadFile : string -> result (list Byte.byte);
  RemoveAll : string -> option Error;
  Store : option Error -> Preparation.Result -> list FileResult -> option Error
}.

(** What the workers leave behind: the calls of [Storer.Store], the
    directories removed, the lines logged. *)
Record World : Type := {
  stored : list (Preparation.Result * list FileResult);
  removed : list string;
  logged : list string
}.

Definition emptyWorld : World :=
  {| stored := []; removed := []; logged := [] |}.

Definition callStore (repoInfo : Preparation.Result) (frs : list FileResult)
    (w : World) : World :=
  {| stored := stored w ++ [(repoInfo, frs)];
     removed := removed w;
     logged := logged w |}.

Definition logErrorf (line : string) (w : World) : World :=
  {| stored := stored w; removed := removed w; logged := logged w ++ [line] |}.

(** The deferred function of [processGit]. *)
Definition removeRepoDir (env : Env) (repoDir : string) (w : World) : World :=
  let w' := {| stored := stored w;
               removed := removed w ++ [repoDir];
               logged := logged w |} in
  match RemoveAll env repoDir with
  | Some e => logErrorf (String.append "failed to remove repo folder: " e) w'
  | None => w'
  end.

(** The loop [for _, ext := range repoInfo.FileExts] of the walk function:
    no [break] after a match. *)
Fixpoint rangeExts (env : Env) (p : string) (exts : list string)
    (fileResults : list FileResult) : result (list FileResult) :=
  match exts with
  | [] => Ok fileResults
  | ext :: rest =>
      if String.eqb (Ext p) ext then
        match ReadFile env p with
        | Err e => Err e
        | Ok buf =>
            rangeExts env p rest
              (fileResults ++
               [{| Path := p; HashType := "MD5"; Hash := md5_Sum env buf |}])
        end
      else rangeExts env p rest fileResults
  end.

(** The function literal passed to [filepath.Walk] in [processGit]. *)
Definition walkFn (env : Env) (exts : list string) : WalkFunc (list FileResult) :=
  fun p info fileResults =>
    if IsDir info then Ok fileResults
    else rangeExts env p exts fileResults.

(** The work item after [tree.Checkout(repoInfo.CheckoutOptions)], whatever
    the call returns. *)
Definition checkedOut (env : Env) (repoDir : string)
    (repoInfo : Preparation.Result) : Preparation.Result :=
  setBranch (CheckoutBranch env repoDir (Preparation.CheckoutOptions repoInfo))
    repoInfo.

(** [Stage.processGit]: the error returned, the work item as the call
    leaves it, and the world after the call. *)
Definition processGit (env : Env) (ctx : option Error)
    (repoInfo : Preparation.Result) (w : World)
  : option Error * Preparation.Result * World :=
  match CopyFromBucket env ctx (Preparation.Name repoInfo) with
  | Err e => (Some e, repoInfo, w)
  | Ok repoDir =>
      let '(err, repoInfo', w') :=
        match PlainOpen env repoDir with
        | Some e => (Some (String.append "failed to open repo: " e), repoInfo, w)
        | None =>
            match Worktree env repoDir with
            | Some e => (Some e, repoInfo, w)
            | None =>
                let repoInfo := setForce true repoInfo in
                let checkout :=
                  Checkout env repoDir (Preparation.CheckoutOptions repoInfo) in
                let repoInfo := checkedOut env repoDir repoInfo in
                match checkout with
                | Err e => (Some e, repoInfo, w)
                | Ok tree =>
                    match Walk repoDir tree
                            (walkFn env (Preparation.FileExts repoInfo)) [] with
                    | Err e => (Some e, repoInfo, w)
                    | Ok fileResults =>
                        (Store env ctx repoInfo fileResults, repoInfo,
                         callStore repoInfo fileResults w)
                    end
                end
            end
        end in
      (err, repoInfo', removeRepoDir env repoDir w')
  end.

(** The body of the goroutine that [Run] starts, up to its error. *)
Definition workerBody (env : Env) (ctx : option Error)
    (repoInfo : Preparation.Result) (w : World)
  : option Error * Preparation.Result * World :=
  match Preparation.Type_ repoInfo with
  | Shared.Git => processGit env ctx repoInfo w
  | _ => (Some "unknown repository type", repoInfo, w)
  end.

(** *** [Stage.Run]

    [golang.org/x/sync/semaphore]: a [Weighted] semaphore of size [workers]
    is the number [semCur] of units held.  [Acquire(ctx, n)] returns [nil]
    once [semCur + n <= workers] and adds [n]; it returns [ctx.Err()] when
    the context is done.  Both outcomes are possible when both conditions
    hold, which covers every version of the library.  [Release(1)]
    subtracts one.

    A state is what the coordinator and its goroutines share; a step is
    one action of the producer, of the owner of the context, of the
    coordinator or of one goroutine.  The body of a goroutine up to its
    error is a single step: the goroutines share nothing but the
    semaphore, the error channel and what they call in [Env]. *)

(** Where the coordinator, the goroutine that runs [Run], stands. *)
Inductive Coordinator : Type :=
| AtAcquire                        (* [sem.Acquire(ctx, 1)], top of the loop *)
| AtSelect                         (* the [select] *)
| AtDrain                          (* [return sem.Acquire(ctx, workers)] *)
| Returned (err : option Error).   (* [Run] has returned [err] *)

(** Where a goroutine started by [go func() { ... }()] stands. *)
Inductive Worker : Type :=
| AtBody (repoInfo : Preparation.Result)   (* the [switch] on the type *)
| AtSend (err : Error)                     (* [wErr <- err] *)
| AtRelease.                               (* the deferred [sem.Release(1)] *)

(** [var ( repoInfo *preparation.Result; ok bool )] after the [select]. *)
Inductive SelectVars : Type :=
| Unset                              (* the zero values [nil], [false] *)
| Got (repoInfo : Preparation.Result).   (* a received item, [ok = true] *)

Definition ok (v : SelectVars) : bool :=
  match v with Got _ => true | Unset => false end.

(** The rest of the loop body after the [select]:
    [if !ok { break }], then [go func() { ... }()]. *)
Definition afterSelect (v : SelectVars) (goroutines : list Worker)
  : Coordinator * list Worker :=
  if negb (ok v) then (AtDrain, goroutines)
  else match v with
       | Got repoInfo => (AtAcquire, goroutines ++ [AtBody repoInfo])
       | Unset => (AtAcquire, goroutines)   (* [ok] is [false] then *)
       end.

Record State : Type := St {
  ctxErr : option Error;            (* [ctx.Err()]; [None] while not done *)
  input : list Preparation.Result;  (* items sent on [input], not yet received *)
  inputClosed : bool;
  semCur : nat;
  wErr : list Error;                (* buffered channel of capacity [workers] *)
  pc : Coordinator;
  goroutines : list Worker;         (* started and not yet finished *)
  world : World
}.

(** [Run] is called: fresh channel and semaphore, no goroutine. *)
Definition initial : State :=
  St None [] false 0 [] AtAcquire [] emptyWorld.

(** [context.Canceled] *)
Definition Canceled : Error := "context canceled".

Definition workerNext (err : option Error) : Worker :=
  match err with Some e => AtSend e | None => AtRelease end.

Inductive step (env : Env) : State -> State -> Prop :=
(* the producer and the owner of the context *)
| producer_send c i n e p g w item :
    step env (St c i false n e p g w) (St c (i ++ [item]) false n e p g w)
| producer_close c i n e p g w :
    step env (St c i false n e p g w) (St c i true n e p g w)
| context_done i cl n e p g w err :
    step env (St None i cl n e p g w) (St (Some err) i cl n e p g w)
(* [sem.Acquire(ctx, 1)] *)
| run_acquire c i cl n e g w :
    n + 1 <= workers ->
    step env (St c i cl n e AtAcquire g w) (St c i cl (n + 1) e AtSelect g w)
| run_acquire_failed err i cl n e g w :
    step env (St (Some err) i cl n e AtAcquire g w)
      (St (Some err) i cl n e
         (Returned (Some (String.append "failed to acquire semaphore: " err))) g w)
(* [case repoInfo, ok = <-input] *)
| run_receive c item i cl n e g w :
    step env (St c (item :: i) cl n e AtSelect g w)
      (St c i cl n e (fst (afterSelect (Got item) g))
         (snd (afterSelect (Got item) g)) w)
| run_receive_closed c n e g w :
    step env (St c [] true n e AtSelect g w)
      (St c [] true n e (fst (afterSelect Unset g)) (snd (afterSelect Unset g)) w)
(* [case err := <-wErr]: [repoInfo] and [ok] keep their zero values *)
| run_worker_error c i cl n err e g w :
    step env (St c i cl n (err :: e) AtSelect g w)
      (St c i cl n e (fst (afterSelect Unset g)) (snd (afterSelect Unset g))
         (logErrorf (String.append "worker returned an error: " err) w))
(* [case <-ctx.Done()] *)
| run_canceled err i cl n e g w :
    step env (St (Some err) i cl n e AtSelect g w)
      (St (Some err) i cl n e (Returned (Some Canceled)) g w)
(* [return sem.Acquire(ctx, workers)] *)
| run_drained c i cl n e g w :
    n + workers <= workers ->
    step env (St c i cl n e AtDrain g w)
      (St c i cl (n + workers) e (Returned None) g w)
| run_drain_failed err i cl n e g w :
    step env (St (Some err) i cl n e AtDrain g w)
      (St (Some err) i cl n e (Returned (Some err)) g w)
(* a goroutine *)
| worker_body c i cl n e p g1 repoInfo g2 w :
    step env (St c i cl n e p (g1 ++ AtBody repoInfo :: g2) w)
      (St c i cl n e p
         (g1 ++ workerNext (fst (fst (workerBody env c repoInfo w))) :: g2)
         (snd (workerBody env c repoInfo w)))
| worker_send c i cl n e p g1 err g2 w :
    List.length e < workers ->
    step env (St c i cl n e p (g1 ++ AtSend err :: g2) w)
      (St c i cl n (e ++ [err]) p (g1 ++ AtRelease :: g2) w)
| worker_release c i cl n e p g1 g2 w :
    step env (St c i cl (S n) e p (g1 ++ AtRelease :: g2) w)
      (St c i cl n e p (g1 ++ g2) w).

(** The states of a run, whatever the producer, the context and the
    scheduler do. *)
Inductive reachable (env : Env) : State -> Prop :=
| reachable_initial : reachable env initial
| reachable_step s s' : reachable env s -> step env s s' -> reachable env s'.

(** Zero or more steps. *)
Inductive steps (env : Env) : State -> State -> Prop :=
| steps_refl s : steps env s s
| steps_step s s' s'' : step env s s' -> steps env s' s'' -> steps env s s''.

End Processing.

(** ** [tools/indexer-api-caller] (package [main] of [caller.go]) *)

Module Caller.

Import Filepath.

(** [FileResult] holds the per file hash and path information. *)
Record FileResult : Type := {
  Path : string;
  Hash : list Byte.byte
}.

(** The local [fileExts] of [buildFileHashes]. *)
Definition fileExts : list string :=
  [".hpp"; ".h"; ".hh"; ".cc"; ".c"; ".cpp"].

(** The loop over [fileExts] in the walk function of [buildFileHashes]. *)
Fixpoint rangeExts (md5_Sum : list Byte.byte -> list Byte.byte)
    (ReadFile : string -> result (list Byte.byte)) (repoDir p : string)
    (exts : list string) (fileResults : list FileResult)
  : result (list FileResult) :=
  match exts with
  | [] => Ok fileResults
  | ext :: rest =>
      if String.eqb (Ext p) ext then
        match ReadFile p with
        | Err e => Err e
        | Ok buf =>
            rangeExts md5_Sum ReadFile repoDir p rest
              (fileResults ++
               [{| Path := Strings.ReplaceAll p repoDir ""; Hash := md5_Sum buf |}])
        end
      else rangeExts md5_Sum ReadFile repoDir p rest fileResults
  end.

Definition walkFn (md5_Sum : list Byte.byte -> list Byte.byte)
    (ReadFile : string -> result (list Byte.byte)) (repoDir : string)
  : WalkFunc (list FileResult) :=
  fun p info fileResults =>
    if IsDir info then Ok fileResults
    else rangeExts md5_Sum ReadFile repoDir p fileExts fileResults.

(** [buildFileHashes(repoDir)] on the directory tree [tree] found at
    [repoDir]; [Err] is the message of [log.Panicf]. *)
Definition buildFileHashes (md5_Sum : list Byte.byte -> list Byte.byte)
    (ReadFile : string -> result (list Byte.byte)) (repoDir : string)
    (tree : Node) : result (list FileResult) :=
  match Walk repoDir tree (walkFn md5_Sum ReadFile repoDir) [] with
  | Err e => Err (String.append "failed during file walk: " e)
  | Ok fileResults => Ok fileResults
  end.

(** [func max(a, b int) int] *)
Definition max (a b : Z) : Z := if (a >? b)%Z then a else b.

(** Equality of two values of [type Hash = [16]byte]. *)
Definition hash_eq_dec : forall x y : list Byte.byte, {x = y} + {x <> y} :=
  list_eq_dec Byte.byte_eq_dec.

(** A Go [map[Hash]*FileResult]: one entry per key.  Go leaves the order of
    a [range] over a map open; here it is the order in which the keys were
    first assigned. *)
Definition HashMap : Type := list (list Byte.byte * FileResult).

(** [m[k] = v] *)
Fixpoint mapAssign (m : HashMap) (k : list Byte.byte) (v : FileResult) : HashMap :=
  match m with
  | [] => [(k, v)]
  | (k', v') :: m' =>
      if hash_eq_dec k' k then (k, v) :: m' else (k', v') :: mapAssign m' k v
  end.

(** [v, ok := m[k]] *)
Fixpoint mapLookup (m : HashMap) (k : list Byte.byte) : option FileResult :=
  match m with
  | [] => None
  | (k', v') :: m' => if hash_eq_dec k' k then Some v' else mapLookup m' k
  end.

(** [fileHashesToDict(res)] *)
Definition fileHashesToDict (res : list FileResult) : HashMap :=
  fold_left (fun output fr => mapAssign output (Hash fr) fr) res [].

(** [compareTwoResults(a, b)]: the lines logged and the number returned. *)
Definition compareTwoResults (a b : list FileResult) : list string * Z :=
  let mapA := fileHashesToDict a in
  let mapB := fileHashesToDict b in
  let '(logs, diffCount) :=
    fold_left
      (fun (st : list string * Z) (entry : list Byte.byte * FileResult) =>
         match mapLookup mapB (fst entry) with
         | Some _ => st
         | None => (fst st ++ [Path (snd entry)], (snd st + 1)%Z)
         end)
      mapA ([], 0%Z) in
  (logs,
   (diffCount + max (Z.of_nat (List.length mapB) - Z.of_nat (List.length mapA)) 0)%Z).

(** The double quote, which the string literals of [buildGit] contain. *)
Definition quote : string := String (Ascii.ascii_of_nat 34) "".

(** One element of the array that [buildGit] writes:
    [{"hash": "%s"}] with the encoded hash. *)
Definition hashObject (encode : list Byte.byte -> string) (fr : FileResult) : string :=
  String.concat ""
    ["{"; quote; "hash"; quote; ": "; quote; encode (Hash fr); quote; "}"].

(** The loop of [buildGit] over [fileResults]: [i] is the index, [n] is
    [len(fileResults)], [b] is the builder. *)
Fixpoint writeHashes (encode : list Byte.byte -> string) (n i : nat)
    (fileResults : list FileResult) (b : string) : string :=
  match fileResults with
  | [] => b
  | fr :: rest =>
      writeHashes encode n (S i) rest
        (String.append b
           (if Nat.eqb i (n - 1) then hashObject encode fr
            else String.append (hashObject encode fr) ","))
  end.

(** The request that [buildGit] builds in its [strings.Builder]; [encode] is
    [base64.StdEncoding.EncodeToString]. *)
Definition requestBody (encode : list Byte.byte -> string)
    (fileResults : list FileResult) : string :=
  let b := String.concat ""
             ["{"; quote; "name"; quote; ":"; quote; "protobuf"; quote; ", ";
              quote; "file_hashes"; quote; ": ["] in
  let b := writeHashes encode (List.length fileResults) 0 fileResults b in
  String.append b "]}".

End Caller.

(** ** Package [storage] *)

Module Storage.

Import Byte.

(** The fields of [document] that the test sets. *)
Record document : Type := {
  Name : string;
  Commit : list Byte.byte;
  FileHashType : string
}.

(** The width of a revision key: the size of [plumbing.Hash]. *)
Definition keyWidth : nat := 20.

(** Go's builtin [copy(dst, src)]: [dst] afterwards. *)
Fixpoint copy (dst src : list Byte.byte) : list Byte.byte :=
  match dst, src with
  | _ :: dst', b :: src' => b :: copy dst' src'
  | _, _ => dst
  end.

(** Modelled from the spec: the normalisation of a revision to the key
    width by the index writer ([storage.go] is not among the sources, only
    its test is): the revision is copied into a zeroed array of [keyWidth]
    bytes, which pads a shorter one with zero bytes on the right and keeps
    the leading bytes of a longer one. *)
Definition normalizeRevision (revision : list Byte.byte) : list Byte.byte :=
  copy (repeat x00 keyWidth) revision.

(** Modelled from the spec: [newDoc] of [storage.go], which the test calls
    and whose source is missing: the document of a work item carries its
    name, its revision normalised to the key width, and the hash type. *)
Definition newDoc (repoInfo : Preparation.Result) (hashType : string)
  : document :=
  {| Name := Preparation.Name repoInfo;
     Commit := normalizeRevision (Preparation.Commit repoInfo);
     FileHashType := hashType |}.

(** [getRepoInfo] of the test.  The literal [[20]byte{0x41, 0x41, 0x41, 0x41}]
    is an array of 20 bytes of which it gives the first four; the fields
    that the test leaves out are zero values. *)
Definition getRepoInfo : Preparation.Result :=
  {| Preparation.Name := "abc";
     Preparation.Commit := [x41; x41; x41; x41] ++ repeat x00 16;
     Preparation.Type_ := Shared.Git;
     Preparation.CheckoutOptions :=
       {| Git.Hash := repeat x00 20; Git.Branch := ""; Git.Create := false;
          Git.Force := false; Git.Keep := false |};
     Preparation.FileExts := [] |}.

(** [getDoc] of the test; [pages] is not used there either. *)
Definition getDoc (pages : nat) : document :=
  {| Name := "abc";
     Commit := [x41; x41; x41; x41; x00; x00; x00; x00; x00; x00;
                x00; x00; x00; x00; x00; x00; x00; x00; x00; x00];
     FileHashType := "MD5" |}.

(** The table of [TestNewDoc]. *)
Definition testCases : list (Preparation.Result * document) :=
  [ (getRepoInfo, getDoc 1); (getRepoInfo, getDoc 1); (getRepoInfo, getDoc 1);
    (getRepoInfo, getDoc 2); (getRepoInfo, getDoc 3) ].

End Storage.

(** * Definitions used to state and prove the properties *)

Section Auxiliary.

Import Filepath Processing.

(** Induction on a tree, with the hypothesis for every entry of a
    directory. *)
Definition Node_forall_ind (P : Node -> Prop)
    (HFile : forall name, P (File name))
    (HDir : forall name entries, Forall P entries -> P (Dir name entries))
  : forall n, P n :=
  fix go (n : Node) : P n :=
    match n with
    | File name => HFile name
    | Dir name entries =>
        HDir name entries
          ((fix all (ns : list Node) : Forall P ns :=
              match ns with
              | [] => Forall_nil P
              | c :: ns' => Forall_cons c (go c) (all ns')
              end) entries)
    end.

(** The calls of a walk function over a list of visits, stopping at the
    first error. *)
Fixpoint callEach {S : Type} (walkFn : WalkFunc S)
    (visits : list (string * FileInfo)) (st : S) : result S :=
  match visits with
  | [] => Ok st
  | (p, info) :: rest =>
      match walkFn p info st with
      | Err e => Err e
      | Ok st' => callEach walkFn rest st'
      end
  end.

(** The entry appended for the file at [p] with content [buf]. *)
Definition digest (env : Env) (p : string) (buf : list Byte.byte) : FileResult :=
  {| Path := p; HashType := "MD5"; Hash := md5_Sum env buf |}.

(** What the visit of one node adds to [fileResults] in a walk that
    succeeds. *)
Definition digestsOf (env : Env) (exts : list string) (v : string * FileInfo)
  : list FileResult :=
  if IsDir (snd v) then []
  else match ReadFile env (fst v) with
       | Ok buf => repeat (digest env (fst v) buf) (count_occ string_dec exts (Ext (fst v)))
       | Err _ => []
       end.

(** The semaphore counts the goroutines not yet finished, and one more unit
    while the coordinator is between its [Acquire(ctx, 1)] and the start of
    the goroutine that will release it.  The unit taken in the iteration
    that leaves the loop is released by nobody. *)
Definition accounted (s : State) : Prop :=
  semCur s <= workers /\
  match pc s with
  | AtAcquire => semCur s = List.length (goroutines s)
  | AtSelect | AtDrain => semCur s = List.length (goroutines s) + 1
  | Returned None => False
  | Returned (Some _) => List.length (goroutines s) <= semCur s
  end.

(** After the loop. *)
Definition pastLoop (s : State) : Prop :=
  pc s = AtDrain \/ exists err, pc s = Returned err.

(** The name of a directory entry: not empty, not [.] or [..], and without
    a separator. *)
Definition plainName (name : string) : bool :=
  negb (String.eqb name "") && negb (String.eqb name ".") &&
  negb (String.eqb name "..") &&
  forallb (fun c => negb (IsPathSeparator c)) (list_ascii_of_string name).

(** A clean path to walk from: one or more names separated by single
    separators, behind a separator or not. *)
Definition cleanDir (path : string) : bool :=
  match elements path with
  | EmptyString :: e :: es => forallb plainName (e :: es)
  | es => forallb plainName es
  end.



(** [c] is not a byte of [s]. *)
Definition noChar (c : ascii) (s : string) : Prop :=
  ~ In c (list_ascii_of_string s).


(** The visits of a walk at which [buildFileHashes] of the caller tool
    reads a file. *)
Definition hashedByCaller (v : string * FileInfo) : bool :=
  negb (IsDir (snd v)) && existsb (String.eqb (Ext (fst v))) Caller.fileExts.

(** The entry that [buildFileHashes] makes for a file it reads: the path
    with the occurrences of [repoDir] taken out, and the digest of the
    content. *)
Definition callerEntry (md5_Sum : list Byte.byte -> list Byte.byte)
    (ReadFile : string -> result (list Byte.byte)) (repoDir : string)
    (v : string * FileInfo) (r : Caller.FileResult) : Prop :=
  Caller.Path r = Strings.ReplaceAll (fst v) repoDir "" /\
  exists buf, ReadFile (fst v) = Ok buf /\ Caller.Hash r = md5_Sum buf.

(** An entry of one map whose key the other map lacks. *)
Definition missingFrom (mapB : Caller.HashMap)
    (entry : list Byte.byte * Caller.FileResult) : bool :=
  match Caller.mapLookup mapB (fst entry) with
  | None => true
  | Some _ => false
  end.

(** [k] is one of [keys]. *)
Definition hashIn (keys : list (list Byte.byte)) (k : list Byte.byte) : bool :=
  if in_dec Caller.hash_eq_dec k keys then true else false.

(** The same calls outside the package, but for [os.RemoveAll]. *)
Definition withRemoveAll (remove : string -> option Error) (env : Env) : Env :=
  {| md5_Sum := md5_Sum env;
     CopyFromBucket := CopyFromBucket env;
     PlainOpen := PlainOpen env;
     Worktree := Worktree env;
     Checkout := Checkout env;
     CheckoutBranch := CheckoutBranch env;
     ReadFile := ReadFile env;
     RemoveAll := remove;
     Store := Store env |}.

(** What a run has stored belongs to git items checked out with force. *)
Definition storedForced (w : World) : Prop :=
  Forall (fun entry => Preparation.Type_ (fst entry) = Shared.Git /\
                       Git.Force (Preparation.CheckoutOptions (fst entry)) = true)
         (stored w).

(** [Run] has returned only with an error that stems from the context. *)
Definition returnedForContext (s : State) : Prop :=
  match pc s with
  | Returned r =>
      exists e, ctxErr s = Some e /\
                (r = Some (String.append "failed to acquire semaphore: " e) \/
                 r = Some Canceled \/ r = Some e)
  | _ => True
  end.

End Auxiliary.

(** Goals on the lengths of lists of goroutines. *)
Ltac lengths := rewrite ?length_app in *; cbn [List.length] in *; try lia.

(** ** A small repository to run the code on *)

Module Sample.

Import Byte Filepath Processing.

(** The working tree after checkout. *)
Definition tree : Node :=
  Dir "abc" [File "a.c"; File "b.txt"; Dir "sub" [File "c.h"]].

(** A stand-in for [md5.Sum]; no property below depends on the digest
    function. *)
Definition sum (buf : list Byte.byte) : list Byte.byte := rev buf.

Definition readAll (p : string) : result (list Byte.byte) := Ok [x68; x69].

(** [sub/c.h] cannot be read. *)
Definition readDenied (p : string) : result (list Byte.byte) :=
  if String.eqb p "/tmp/abc/sub/c.h" then Err "permission denied"
  else Ok [x68; x69].

Definition envWith (read : string -> result (list Byte.byte)) : Env :=
  {| md5_Sum := sum;
     CopyFromBucket := fun _ name => Ok (String.append "/tmp/" name);
     PlainOpen := fun _ => None;
     Worktree := fun _ => None;
     Checkout := fun _ _ => Ok tree;
     CheckoutBranch := fun _ o => Git.defaultBranch o;
     ReadFile := read;
     RemoveAll := fun _ => None;
     Store := fun _ _ _ => None |}.

Definition env : Env := envWith readAll.

Definition options (force : bool) : Git.CheckoutOptions :=
  {| Git.Hash := repeat x41 20; Git.Branch := ""; Git.Create := false;
     Git.Force := force; Git.Keep := false |}.

Definition item (type : Shared.RepoType) (force : bool) (exts : list string)
  : Preparation.Result :=
  {| Preparation.Name := "abc";
     Preparation.Commit := repeat x41 20;
     Preparation.Type_ := type;
     Preparation.CheckoutOptions := options force;
     Preparation.FileExts := exts |}.

End Sample.

(** Runs of the stage on the sample repository. *)

Section SampleStates.

Import Processing.

(** An item of a kind the stage does not know, and a git item. *)
Definition unknownItem : Preparation.Result := Sample.item (Shared.Other 7) false [".c"].
Definition gitItem : Preparation.Result := Sample.item Shared.Git false [".c"].

(** The item of unknown kind has failed and its error is in the channel;
    the producer has sent a second item; the coordinator is at its
    [select]. *)
Definition errorPending : State :=
  St None [gitItem] false 2 ["unknown repository type"] AtSelect [AtRelease] emptyWorld.

(** The input was closed before any item was sent; the loop has been left. *)
Definition drainingIdle : State :=
  St None [] true 1 [] AtDrain [] emptyWorld.

(** One item is being processed, the input is closed, the loop has been
    left, and then the context is cancelled. *)
Definition drainingCanceled : State :=
  St (Some Canceled) [] true 2 [] AtDrain [AtBody gitItem] emptyWorld.

(** The context was cancelled during the final [Acquire] and [Run] has
    returned; the goroutine of the item is still at its body. *)
Definition returnedCanceled : State :=
  St (Some Canceled) [] true 2 [] (Returned (Some Canceled)) [AtBody gitItem] emptyWorld.

(** The git item has been processed and stored; its goroutine is about to
    release its unit. *)
Definition itemStored : State :=
  St None [] false 2 [] AtSelect [AtRelease]
     (snd (workerBody Sample.env None gitItem emptyWorld)).

(** An item with a file that cannot be read is being processed where
    [sub/c.h] is denied, and an item that needs [a.c] only waits in the
    input. *)
Definition unreadableItem : Preparation.Result :=
  Sample.item Shared.Git true [".c"; ".h"].
Definition healthyItem : Preparation.Result :=
  Sample.item Shared.Git true [".c"].
Definition readFailurePending : State :=
  St None [healthyItem] false 2 [] AtSelect [AtBody unreadableItem] emptyWorld.

End SampleStates.

(** * Properties *)

(** ** The file walk *)

Section WalkFacts.

Import Filepath.

(** [filepath.Ext] on a few paths: the suffix from the last dot of the last
    element, nothing when that element has no dot. *)
Example Ext_examples :
  Ext "/tmp/abc/a.c" = ".c" /\ Ext "lib.tar.gz" = ".gz" /\ Ext "Makefile" = "" /\
  Ext "/tmp/v1.2/README" = "" /\ Ext "/tmp/abc/.gitignore" = ".gitignore" /\
  Ext "a.C" = ".C".
Proof. repeat split. Qed.

(** [strings.ReplaceAll] on a few strings. *)
Example ReplaceAll_examples :
  Strings.ReplaceAll "/tmp/abc/sub/c.h" "/tmp/abc" "" = "/sub/c.h" /\
  Strings.ReplaceAll "aaa" "aa" "b" = "ba" /\
  Strings.ReplaceAll "abcabc" "bc" "-" = "a-a-" /\
  Strings.ReplaceAll "ab" "" "-" = "-a-b-".
Proof. repeat split. Qed.

(** The calls of [Walk] on the sample repository. *)
Example visited_sample :
  map fst (visited "/tmp/abc" Sample.tree) =
  ["/tmp/abc"; "/tmp/abc/a.c"; "/tmp/abc/b.txt"; "/tmp/abc/sub"; "/tmp/abc/sub/c.h"].
Proof. reflexivity. Qed.

Lemma callEach_app {S : Type} (walkFn : WalkFunc S) (a b : list (string * FileInfo)) (st : S) :
  callEach walkFn (a ++ b) st =
  match callEach walkFn a st with
  | Err e => Err e
  | Ok st' => callEach walkFn b st'
  end.
Proof.
  revert st. induction a as [|[p info] a IH]; intros st; simpl.
  - reflexivity.
  - destruct (walkFn p info st) as [st'|e]; [apply IH | reflexivity].
Qed.

(** A walk is the sequence of calls on the nodes it visits. *)
Lemma walk_visited {S : Type} (walkFn : WalkFunc S) (n : Node) :
  forall path st, walk walkFn path n st = callEach walkFn (visited path n) st.
Proof.
  induction n as [name | name entries IH] using Node_forall_ind; intros path st.
  - simpl. destruct (walkFn path _ st); reflexivity.
  - simpl. destruct (walkFn path _ st) as [st1|e]; [|reflexivity].
    revert st1. induction IH as [|c ns Hc Hns IHns]; intros st1.
    + reflexivity.
    + rewrite callEach_app, <- Hc.
      destruct (walk walkFn (Join path (nodeName c)) c st1); [apply IHns | reflexivity].
Qed.

Lemma prefix_append (a b : string) : String.prefix a (String.append a b) = true.
Proof.
  induction a as [|c a IH]; simpl.
  - destruct b; reflexivity.
  - destruct (ascii_dec c c) as [_|ne]; [exact IH | contradiction].
Qed.

Lemma prefix_trans (a b c : string) :
  String.prefix a b = true -> String.prefix b c = true -> String.prefix a c = true.
Proof.
  revert b c. induction a as [|x a IH]; intros b c Hab Hbc.
  - destruct c; reflexivity.
  - destruct b as [|y b]; [discriminate|].
    destruct c as [|z c]; [discriminate|].
    simpl in *.
    destruct (ascii_dec x y) as [->|]; [|discriminate].
    destruct (ascii_dec y z) as [->|]; [|discriminate].
    eapply IH; eassumption.
Qed.

Lemma prefix_refl (a : string) : String.prefix a a = true.
Proof.
  induction a as [|c a IH]; simpl; [reflexivity|].
  destruct (ascii_dec c c); [exact IH | contradiction].
Qed.

(** Every path of a walk starts with the root the walk was given. *)
Lemma visited_prefix (n : Node) :
  forall path p info, In (p, info) (visited path n) -> String.prefix path p = true.
Proof.
  induction n as [name | name entries IH] using Node_forall_ind; intros path p info Hin.
  - destruct Hin as [[= <- _]|[]]. apply prefix_refl.
  - destruct Hin as [[= <- _]|Hin]; [apply prefix_refl|].
    induction IH as [|c ns Hc Hns IHns]; [destruct Hin|].
    apply in_app_or in Hin. destruct Hin as [Hin|Hin]; [|exact (IHns Hin)].
    eapply prefix_trans; [apply prefix_append | exact (Hc _ _ _ Hin)].
Qed.

End WalkFacts.

(** ** The walk function of [processGit] *)

Section Hashing.

Import Filepath Processing.

Variable env : Env.
Variable exts : list string.

Lemma eqb_count_occ (p ext : string) (rest : list string) :
  count_occ string_dec (ext :: rest) (Ext p) =
  if String.eqb (Ext p) ext then S (count_occ string_dec rest (Ext p))
  else count_occ string_dec rest (Ext p).
Proof.
  simpl. destruct (String.eqb_spec (Ext p) ext) as [->|ne].
  - destruct (string_dec ext ext); [reflexivity | contradiction].
  - destruct (string_dec ext (Ext p)) as [e|]; [symmetry in e; contradiction | reflexivity].
Qed.

(** The loop over the extensions, in closed form: nothing happens when no
    extension matches; otherwise the file is read for every match, and one
    entry per match is appended unless the read fails. *)
Lemma rangeExts_closed (p : string) :
  forall (l : list string) (acc : list FileResult),
  rangeExts env p l acc =
  match count_occ string_dec l (Ext p) with
  | O => Ok acc
  | S k =>
      match ReadFile env p with
      | Err e => Err e
      | Ok buf => Ok (acc ++ repeat (digest env p buf) (S k))
      end
  end.
Proof.
  induction l as [|ext rest IH]; intros acc.
  - reflexivity.
  - rewrite eqb_count_occ. cbn [rangeExts].
    destruct (String.eqb (Ext p) ext).
    + destruct (ReadFile env p) as [buf|e] eqn:Hread; [|reflexivity].
      rewrite IH. fold (digest env p buf).
      destruct (count_occ string_dec rest (Ext p)) as [|k].
      * reflexivity.
      * rewrite <- app_assoc. reflexivity.
    + apply IH.
Qed.

Lemma count_occ_pos_In (l : list string) (x : string) :
  In x l <-> count_occ string_dec l x <> 0.
Proof.
  rewrite (count_occ_In string_dec). lia.
Qed.

Lemma callEach_walkFn_ok (visits : list (string * FileInfo)) :
  forall acc rs,
  callEach (walkFn env exts) visits acc = Ok rs ->
  rs = acc ++ flat_map (digestsOf env exts) visits.
Proof.
  induction visits as [|[p info] rest IH]; intros acc rs H; simpl in H.
  - injection H as <-. simpl. now rewrite app_nil_r.
  - unfold walkFn at 1 in H. unfold digestsOf at 1. cbn [flat_map fst snd].
    destruct (IsDir info).
    + apply IH in H. exact H.
    + rewrite rangeExts_closed in H.
      destruct (count_occ string_dec exts (Ext p)) as [|k].
      * apply IH in H. destruct (ReadFile env p); exact H.
      * destruct (ReadFile env p) as [buf|e]; [|discriminate].
        apply IH in H. rewrite H, <- app_assoc. reflexivity.
Qed.

Lemma callEach_walkFn_err (visits : list (string * FileInfo)) :
  forall acc p info e,
  In (p, info) visits -> IsDir info = false -> In (Ext p) exts ->
  ReadFile env p = Err e ->
  exists e', callEach (walkFn env exts) visits acc = Err e'.
Proof.
  induction visits as [|[q qi] rest IH]; intros acc p info e Hin Hfile Hext Hread.
  - destruct Hin.
  - simpl. destruct (walkFn env exts q qi acc) as [acc'|e'] eqn:Hq; [|eauto].
    destruct Hin as [[= -> ->]|Hin]; [|eapply IH; eassumption].
    exfalso. unfold walkFn in Hq. rewrite Hfile, rangeExts_closed, Hread in Hq.
    apply count_occ_pos_In in Hext.
    destruct (count_occ string_dec exts (Ext p)); [contradiction | discriminate].
Qed.

Lemma callEach_walkFn_total (visits : list (string * FileInfo)) :
  (forall p info, In (p, info) visits -> IsDir info = false -> In (Ext p) exts ->
                  exists buf, ReadFile env p = Ok buf) ->
  forall acc, exists rs, callEach (walkFn env exts) visits acc = Ok rs.
Proof.
  induction visits as [|[q qi] rest IH]; intros Hread acc; simpl.
  - eauto.
  - assert (Hq : exists acc', walkFn env exts q qi acc = Ok acc').
    { unfold walkFn. destruct (IsDir qi) eqn:Hdir; [eauto|].
      rewrite rangeExts_closed.
      destruct (count_occ string_dec exts (Ext q)) as [|k] eqn:Hk; [eauto|].
      destruct (Hread q qi) as [buf ->]; [now left | exact Hdir | | eauto].
      apply count_occ_pos_In. lia. }
    destruct Hq as [acc' ->]. apply IH. intros p info Hin. apply Hread. now right.
Qed.

(** In a walk that succeeds every matched file was read. *)
Lemma callEach_walkFn_read (visits : list (string * FileInfo)) acc rs p info :
  callEach (walkFn env exts) visits acc = Ok rs ->
  In (p, info) visits -> IsDir info = false -> In (Ext p) exts ->
  exists buf, ReadFile env p = Ok buf.
Proof.
  intros Hok Hin Hfile Hext.
  destruct (ReadFile env p) as [buf|e] eqn:Hread; [eauto|].
  destruct (callEach_walkFn_err visits acc p info e Hin Hfile Hext Hread) as [e' He'].
  congruence.
Qed.

(** The part of a node, when the files it matches can be read: nothing for
    a directory and for a file of another extension, and one entry per
    occurrence of its extension for a matched file. *)
Lemma digestsOf_cases (p : string) (info : FileInfo) :
  (IsDir info = false -> In (Ext p) exts -> exists buf, ReadFile env p = Ok buf) ->
  (IsDir info = true /\ digestsOf env exts (p, info) = []) \/
  (IsDir info = false /\ ~ In (Ext p) exts /\ digestsOf env exts (p, info) = []) \/
  (IsDir info = false /\ In (Ext p) exts /\
   exists buf k, ReadFile env p = Ok buf /\
                 count_occ string_dec exts (Ext p) = S k /\
                 digestsOf env exts (p, info) = repeat (digest env p buf) (S k)).
Proof.
  intros Hread. unfold digestsOf. cbn [fst snd].
  destruct (IsDir info) eqn:Hdir; [now left | right].
  destruct (in_dec string_dec (Ext p) exts) as [Hin|Hout].
  - right. destruct (Hread eq_refl Hin) as [buf Hbuf]. rewrite Hbuf.
    pose proof (proj1 (count_occ_pos_In exts (Ext p)) Hin) as Hpos.
    destruct (count_occ string_dec exts (Ext p)) as [|k] eqn:Hk; [contradiction|].
    repeat split; [exact Hin | eauto].
  - left. apply (count_occ_not_In string_dec) in Hout as Hzero. rewrite Hzero.
    repeat split; [exact Hout | destruct (ReadFile env p); reflexivity].
Qed.

(** The digest list of a walk that succeeds, part by part. *)
Lemma Walk_digests (root : string) (tree : Node) (rs : list FileResult) :
  Walk root tree (walkFn env exts) [] = Ok rs ->
  rs = List.concat (map (digestsOf env exts) (visited root tree)) /\
  forall p info, In (p, info) (visited root tree) -> IsDir info = false ->
                 In (Ext p) exts -> exists buf, ReadFile env p = Ok buf.
Proof.
  unfold Walk. rewrite walk_visited. intros Hok. split.
  - apply callEach_walkFn_ok in Hok. now rewrite <- flat_map_concat_map.
  - intros p info. exact (callEach_walkFn_read _ _ _ p info Hok).
Qed.

End Hashing.

Lemma Forall2_map_In {A B : Type} (R : A -> B -> Prop) (f : A -> B) (l : list A) :
  (forall a, In a l -> R a (f a)) -> Forall2 R l (map f l).
Proof.
  induction l as [|a l IH]; intros H; simpl; constructor.
  - apply H. now left.
  - apply IH. intros b Hb. apply H. now right.
Qed.

(** ** Claims on the hashing pass *)

Section HashingClaims.

Import Filepath Processing.

(** C8.  Extension filtering.  A walk over a working tree succeeds when
    every file it matches can be read, and the digest list of a walk that
    succeeds is made of one part per visited node, in traversal order: the
    part of a node is non-empty iff the node is not a directory and its
    extension, as [filepath.Ext] computes it, is one of the requested
    extensions; every entry of the part carries the node's path, the tag
    MD5 and the digest of the file's content.  So directories and files
    with other extensions add nothing and raise no error. *)
Theorem walk_extension_filter (env : Env) (exts : list string)
    (root : string) (tree : Node) :
  ((forall p info, In (p, info) (visited root tree) -> IsDir info = false ->
                   In (Ext p) exts -> exists buf, ReadFile env p = Ok buf) ->
   exists rs, Walk root tree (walkFn env exts) [] = Ok rs) /\
  (forall rs, Walk root tree (walkFn env exts) [] = Ok rs ->
   exists parts,
     rs = List.concat parts /\
     Forall2
       (fun v part =>
          (part <> [] <-> IsDir (snd v) = false /\ In (Ext (fst v)) exts) /\
          Forall (fun r => Path r = fst v /\ HashType r = "MD5" /\
                           exists buf, ReadFile env (fst v) = Ok buf /\
                                       Hash r = md5_Sum env buf) part)
       (visited root tree) parts).
Proof.
  split.
  - intros Hread. unfold Walk. rewrite walk_visited.
    apply callEach_walkFn_total, Hread.
  - intros rs Hok. destruct (Walk_digests env exts root tree rs Hok) as [Hrs Hread].
    exists (map (digestsOf env exts) (visited root tree)).
    split; [exact Hrs|]. apply Forall2_map_In. intros [p info] Hin. cbn [fst snd].
    destruct (digestsOf_cases env exts p info (Hread p info Hin))
      as [[Hdir ->] | [[Hfile [Hout ->]] | [Hfile [Hext [buf [k [Hbuf [_ ->]]]]]]]].
    + split; [|constructor]. split; [congruence | intros [? _]; congruence].
    + split; [|constructor]. split; [congruence | intros [_ ?]; contradiction].
    + split; [split; [auto | discriminate]|].
      apply Forall_forall. intros r Hr. apply repeat_spec in Hr. subst r. cbn. eauto.
Qed.

(** C8 on the sample repository, for the extensions [.c] and [.h]. *)
Lemma walk_extension_filter_sample :
  exists rs parts,
    Walk "/tmp/abc" Sample.tree (walkFn Sample.env [".c"; ".h"]) [] = Ok rs /\
    rs = List.concat parts /\
    Forall2
      (fun v part =>
         (part <> [] <-> IsDir (snd v) = false /\ In (Ext (fst v)) [".c"; ".h"]) /\
         Forall (fun r => Path r = fst v /\ HashType r = "MD5" /\
                          exists buf, ReadFile Sample.env (fst v) = Ok buf /\
                                      Hash r = md5_Sum Sample.env buf) part)
      (visited "/tmp/abc" Sample.tree) parts.
Proof.
  destruct (walk_extension_filter Sample.env [".c"; ".h"] "/tmp/abc" Sample.tree)
    as [Htotal Hparts].
  destruct Htotal as [rs Hrs].
  - intros p info _ _ _. exists [Byte.x68; Byte.x69]. reflexivity.
  - destruct (Hparts rs Hrs) as [parts [Hconcat Hall]].
    exists rs, parts. split; [exact Hrs | split; [exact Hconcat | exact Hall]].
Defined.

Lemma NoDup_repeat_twice {A : Type} (a b : list A) (d : A) (k : nat) :
  ~ NoDup (a ++ repeat d (S (S k)) ++ b).
Proof.
  intros H. apply NoDup_app_remove_l in H. simpl in H.
  inversion H as [|? ? Hnotin _]. apply Hnotin. now left.
Qed.

(** C10, as the code has it.  The loop over the extension list does not
    stop at the first match: for a file whose extension occurs [k] times in
    the list, the walk function appends exactly [k] identical entries (same
    path, same tag, same digest), and the digest list of a walk that
    succeeds is made of these runs, one per visited file in traversal
    order.  Hence a digest list without duplicates means that the extension
    of every visited file occurs at most once in the list, and with a
    duplicate-free list every file adds at most one entry.  (A duplicate in
    the list that no visited file has as its extension leaves the digest
    list duplicate-free.) *)
Theorem rangeExts_entry_per_occurrence (env : Env) (exts : list string) :
  (forall p info acc buf,
     IsDir info = false -> ReadFile env p = Ok buf ->
     walkFn env exts p info acc =
     Ok (acc ++ repeat {| Path := p; HashType := "MD5"; Hash := md5_Sum env buf |}
                       (count_occ string_dec exts (Ext p)))) /\
  (forall root tree rs,
     Walk root tree (walkFn env exts) [] = Ok rs ->
     exists parts,
       rs = List.concat parts /\
       Forall2
         (fun v part =>
            if IsDir (snd v) then part = []
            else exists r, Path r = fst v /\
                           part = repeat r (count_occ string_dec exts (Ext (fst v))))
         (visited root tree) parts) /\
  (forall root tree rs,
     Walk root tree (walkFn env exts) [] = Ok rs -> NoDup rs ->
     forall p info, In (p, info) (visited root tree) -> IsDir info = false ->
                    count_occ string_dec exts (Ext p) <= 1) /\
  (NoDup exts -> forall p, count_occ string_dec exts (Ext p) <= 1).
Proof.
  split; [|split; [|split]].
  - intros p info acc buf Hfile Hread. unfold walkFn.
    rewrite Hfile, rangeExts_closed, Hread.
    destruct (count_occ string_dec exts (Ext p)); [now rewrite app_nil_r | reflexivity].
  - intros root tree rs Hok.
    destruct (Walk_digests env exts root tree rs Hok) as [Hrs Hread].
    exists (map (digestsOf env exts) (visited root tree)).
    split; [exact Hrs|]. apply Forall2_map_In. intros [p info] Hin. cbn [fst snd].
    destruct (digestsOf_cases env exts p info (Hread p info Hin))
      as [[Hdir ->] | [[Hfile [Hout ->]] | [Hfile [Hext [buf [k [Hbuf [Hk ->]]]]]]]].
    + now rewrite Hdir.
    + rewrite Hfile. exists (digest env p []). split; [reflexivity|].
      apply (count_occ_not_In string_dec) in Hout. now rewrite Hout.
    + rewrite Hfile, Hk. exists (digest env p buf). split; reflexivity.
  - intros root tree rs Hok Hnodup p info Hin Hfile.
    destruct (Walk_digests env exts root tree rs Hok) as [Hrs Hread].
    destruct (digestsOf_cases env exts p info (Hread p info Hin))
      as [[Hdir _] | [[_ [Hout _]] | [_ [_ [buf [k [_ [Hk Hpart]]]]]]]].
    + congruence.
    + apply (count_occ_not_In string_dec) in Hout. lia.
    + destruct k as [|k]; [lia | exfalso].
      apply in_split in Hin. destruct Hin as [v1 [v2 Hsplit]].
      rewrite Hsplit, map_app, concat_app in Hrs. cbn [map List.concat] in Hrs.
      rewrite Hpart in Hrs. subst rs.
      exact (NoDup_repeat_twice _ _ _ _ Hnodup).
  - intros Hnodup p. apply (proj1 (NoDup_count_occ string_dec exts) Hnodup).
Qed.

(** C10 on the sample repository with [.c] listed twice: [a.c] is entered
    twice. *)
Lemma rangeExts_entry_per_occurrence_sample :
  ReadFile Sample.env "/tmp/abc/a.c" = Ok [Byte.x68; Byte.x69] /\
  walkFn Sample.env [".c"; ".h"; ".c"] "/tmp/abc/a.c" (Lstat (File "a.c")) [] =
  Ok [ {| Path := "/tmp/abc/a.c"; HashType := "MD5"; Hash := [Byte.x69; Byte.x68] |};
       {| Path := "/tmp/abc/a.c"; HashType := "MD5"; Hash := [Byte.x69; Byte.x68] |} ].
Proof.
  split; [reflexivity|].
  exact (proj1 (rangeExts_entry_per_occurrence Sample.env [".c"; ".h"; ".c"])
           "/tmp/abc/a.c" (Lstat (File "a.c")) [] [Byte.x68; Byte.x69]
           eq_refl eq_refl).
Defined.

(** C10 as stated fails where it says that the digest list is
    duplicate-free only when the extension list is: with [.go] listed twice
    the sample repository, which has no such file, gives the empty digest
    list. *)
Lemma duplicate_extension_without_file :
  Walk "/tmp/abc" Sample.tree (walkFn Sample.env [".go"; ".go"]) [] = Ok [] /\
  NoDup (@nil FileResult) /\
  ~ NoDup [".go"; ".go"].
Proof.
  split; [reflexivity | split; [constructor|]].
  intros H. inversion H as [|? ? Hnotin _]. apply Hnotin. now left.
Qed.

Lemma extLoop_shape (rpath : list ascii) :
  forall suffix,
  extLoop rpath suffix = "" \/ exists t, extLoop rpath suffix = String "."%char t.
Proof.
  induction rpath as [|c rest IH]; intros suffix; simpl.
  - now left.
  - destruct (IsPathSeparator c); [now left|].
    destruct (Ascii.eqb_spec c "."%char) as [->|_]; [right; eauto | apply IH].
Qed.

(** An entry of the extension list that does not start with a dot matches
    no file at all: listed twice, it duplicates nothing in any tree. *)
Example duplicate_extension_never_matched (env : Env) (root : string) (tree : Node) :
  Walk root tree (walkFn env ["go"; "go"]) [] = Ok [].
Proof.
  unfold Walk. rewrite walk_visited. generalize (@nil FileResult) as acc.
  induction (visited root tree) as [|[p info] rest IH]; intros acc; simpl.
  - reflexivity.
  - unfold walkFn at 1. destruct (IsDir info); [apply IH|].
    rewrite rangeExts_closed.
    replace (count_occ string_dec ["go"; "go"] (Ext p)) with 0; [apply IH|].
    symmetry. apply (count_occ_not_In string_dec).
    unfold Ext. destruct (extLoop_shape (rev (list_ascii_of_string p)) "") as [->|[t ->]];
      intros [H|[H|[]]]; discriminate H.
Qed.

End HashingClaims.

(** ** Claims on [processGit] *)

Section ProcessGitClaims.

Import Filepath Processing.

Lemma setForce_same (r : Preparation.Result) :
  setForce (Git.Force (Preparation.CheckoutOptions r)) r = r.
Proof. destruct r as [name commit type [hash branch create force keep] exts]. reflexivity. Qed.

(** [processGit] step by step, once the bucket copy has succeeded. *)
Lemma processGit_copied (env : Env) ctx repoInfo w repoDir :
  CopyFromBucket env ctx (Preparation.Name repoInfo) = Ok repoDir ->
  processGit env ctx repoInfo w =
  match PlainOpen env repoDir with
  | Some e => (Some (String.append "failed to open repo: " e), repoInfo,
               removeRepoDir env repoDir w)
  | None =>
      match Worktree env repoDir with
      | Some e => (Some e, repoInfo, removeRepoDir env repoDir w)
      | None =>
          match Checkout env repoDir
                  (Preparation.CheckoutOptions (setForce true repoInfo)) with
          | Err e => (Some e, checkedOut env repoDir (setForce true repoInfo),
                      removeRepoDir env repoDir w)
          | Ok tree =>
              match Walk repoDir tree
                      (walkFn env (Preparation.FileExts repoInfo)) [] with
              | Err e => (Some e, checkedOut env repoDir (setForce true repoInfo),
                          removeRepoDir env repoDir w)
              | Ok frs =>
                  (Store env ctx (checkedOut env repoDir (setForce true repoInfo)) frs,
                   checkedOut env repoDir (setForce true repoInfo),
                   removeRepoDir env repoDir
                     (callStore (checkedOut env repoDir (setForce true repoInfo)) frs w))
              end
          end
      end
  end.
Proof.
  intros Hcopy. unfold processGit. rewrite Hcopy.
  destruct (PlainOpen env repoDir); [reflexivity|].
  destruct (Worktree env repoDir); [reflexivity|].
  destruct (Checkout env repoDir _); [|reflexivity].
  cbn [Preparation.FileExts setForce setBranch checkedOut].
  destruct (Walk repoDir a _ []); reflexivity.
Qed.

Lemma stored_removeRepoDir (env : Env) repoDir w :
  stored (removeRepoDir env repoDir w) = stored w.
Proof. unfold removeRepoDir. destruct (RemoveAll env repoDir); reflexivity. Qed.

(** C5, what the code does.  The entries that [processGit] hands to the
    storer carry the tag MD5 and the digest of the file, and as [Path] the
    path that [filepath.Walk] passed to the walk function: it starts with
    the private directory that [CopyFromBucket] returned.  It is not made
    relative to the working tree, as [buildFileHashes] of the caller tool
    does with [strings.ReplaceAll(p, repoDir, "")].  The entries are
    stored with the item as the checkout has left it. *)
Theorem processGit_paths_under_repoDir (env : Env) ctx repoInfo w repoDir :
  CopyFromBucket env ctx (Preparation.Name repoInfo) = Ok repoDir ->
  stored (snd (processGit env ctx repoInfo w)) = stored w \/
  exists frs,
    stored (snd (processGit env ctx repoInfo w)) =
      stored w ++ [(checkedOut env repoDir (setForce true repoInfo), frs)] /\
    Forall (fun r => String.prefix repoDir (Path r) = true /\
                     HashType r = "MD5" /\
                     exists buf, ReadFile env (Path r) = Ok buf /\
                                 Hash r = md5_Sum env buf) frs.
Proof.
  intros Hcopy. rewrite (processGit_copied env ctx repoInfo w repoDir Hcopy).
  destruct (PlainOpen env repoDir); [left; apply stored_removeRepoDir|].
  destruct (Worktree env repoDir); [left; apply stored_removeRepoDir|].
  destruct (Checkout env repoDir _) as [tree|]; [|left; apply stored_removeRepoDir].
  destruct (Walk repoDir tree _ []) as [frs|] eqn:Hwalk; [|left; apply stored_removeRepoDir].
  right. exists frs. split; [cbn [snd]; now rewrite stored_removeRepoDir|].
  unfold Walk in Hwalk. rewrite walk_visited in Hwalk.
  apply callEach_walkFn_ok in Hwalk. rewrite app_nil_l in Hwalk. subst frs.
  apply Forall_forall. intros r Hr. apply in_flat_map in Hr.
  destruct Hr as [[p info] [Hin Hr]]. unfold digestsOf in Hr. cbn [fst snd] in Hr.
  destruct (IsDir info); [destruct Hr|].
  destruct (ReadFile env p) as [buf|] eqn:Hread; [|destruct Hr].
  apply repeat_spec in Hr. subst r. cbn.
  split; [exact (visited_prefix tree repoDir p info Hin) | eauto].
Qed.

(** C5 on the sample repository: the stored path of [a.c] is the path
    inside the private directory [/tmp/abc]. *)
Lemma processGit_paths_under_repoDir_sample :
  stored (snd (processGit Sample.env None (Sample.item Shared.Git true [".c"]) emptyWorld)) =
    [(setBranch Git.Master (Sample.item Shared.Git true [".c"]),
      [{| Path := "/tmp/abc/a.c"; HashType := "MD5"; Hash := [Byte.x69; Byte.x68] |}])] /\
  (stored (snd (processGit Sample.env None (Sample.item Shared.Git true [".c"]) emptyWorld)) =
     stored emptyWorld \/
   exists frs,
     stored (snd (processGit Sample.env None (Sample.item Shared.Git true [".c"]) emptyWorld)) =
       stored emptyWorld ++
         [(checkedOut Sample.env "/tmp/abc"
             (setForce true (Sample.item Shared.Git true [".c"])), frs)] /\
     Forall (fun r => String.prefix "/tmp/abc" (Path r) = true /\
                      HashType r = "MD5" /\
                      exists buf, ReadFile Sample.env (Path r) = Ok buf /\
                                  Hash r = md5_Sum Sample.env buf) frs).
Proof.
  split; [reflexivity|].
  exact (processGit_paths_under_repoDir Sample.env None
           (Sample.item Shared.Git true [".c"]) emptyWorld "/tmp/abc" eq_refl).
Defined.

(** The caller tool on the same directory: the path of [a.c] without the
    directory. *)
Example buildFileHashes_sample :
  Caller.buildFileHashes Sample.sum Sample.readAll "/tmp/abc" Sample.tree =
  Ok [ {| Caller.Path := "/a.c"; Caller.Hash := [Byte.x69; Byte.x68] |};
       {| Caller.Path := "/sub/c.h"; Caller.Hash := [Byte.x69; Byte.x68] |} ].
Proof. reflexivity. Qed.




(** An item enqueued with [Force] set is changed as well when its [Branch]
    is empty: go-git writes its default into it. *)
Example workerBody_fills_Branch :
  Git.Branch (Preparation.CheckoutOptions (Sample.item Shared.Git true [".c"])) = "" /\
  snd (fst (workerBody Sample.env None (Sample.item Shared.Git true [".c"]) emptyWorld)) =
    setBranch "refs/heads/master" (Sample.item Shared.Git true [".c"]).
Proof. split; reflexivity. Qed.

End ProcessGitClaims.

(** ** Package [storage]: the revision key *)

Section StorageClaims.

Import Byte Storage.

Lemma copy_short (src : list Byte.byte) :
  forall dst, List.length src <= List.length dst ->
  copy dst src = src ++ skipn (List.length src) dst.
Proof.
  induction src as [|b src IH]; intros dst Hlen.
  - destruct dst; reflexivity.
  - destruct dst as [|d dst]; simpl in *; [lia|].
    f_equal. apply IH. lia.
Qed.

Lemma copy_long (src : list Byte.byte) :
  forall dst, List.length dst <= List.length src ->
  copy dst src = firstn (List.length dst) src.
Proof.
  induction src as [|b src IH]; intros dst Hlen.
  - destruct dst; simpl in *; [reflexivity | lia].
  - destruct dst as [|d dst]; simpl in *; [reflexivity|].
    f_equal. apply IH. lia.
Qed.

Lemma skipn_repeat {A : Type} (x : A) (k n : nat) :
  skipn k (repeat x n) = repeat x (n - k).
Proof.
  revert n. induction k as [|k IH]; intros n.
  - now rewrite Nat.sub_0_r.
  - destruct n as [|n]; [reflexivity | apply IH].
Qed.

(** C4.  The revision key.  A revision shorter than the key width of 20
    bytes is stored left-aligned and padded with zero bytes on the right to
    20 bytes; of a revision of 20 bytes or more the first 20 bytes are
    stored.  The key of the four bytes [41 41 41 41] is these followed by
    16 zero bytes, which is the [Commit] of the document the test expects,
    and [newDoc] gives that document on every case of the test's table. *)
Theorem normalizeRevision_pads_or_truncates (revision : list Byte.byte) :
  keyWidth = 20 /\
  (List.length revision < 20 ->
   normalizeRevision revision = revision ++ repeat x00 (20 - List.length revision)) /\
  (20 <= List.length revision ->
   normalizeRevision revision = firstn 20 revision) /\
  List.length (normalizeRevision revision) = 20 /\
  normalizeRevision [x41; x41; x41; x41] = [x41; x41; x41; x41] ++ repeat x00 16 /\
  normalizeRevision [x41; x41; x41; x41] = Commit (getDoc 1) /\
  Forall (fun tc => newDoc (fst tc) "MD5" = snd tc) testCases.
Proof.
  assert (Hshort : List.length revision < 20 ->
                   normalizeRevision revision =
                   revision ++ repeat x00 (20 - List.length revision)).
  { intros Hlen. unfold normalizeRevision, keyWidth.
    rewrite copy_short by (rewrite repeat_length; lia).
    now rewrite skipn_repeat. }
  assert (Hlong : 20 <= List.length revision ->
                  normalizeRevision revision = firstn 20 revision).
  { intros Hlen. unfold normalizeRevision, keyWidth.
    rewrite copy_long by (rewrite repeat_length; lia).
    now rewrite repeat_length. }
  split; [reflexivity|]. split; [exact Hshort|]. split; [exact Hlong|].
  split.
  - destruct (Nat.lt_ge_cases (List.length revision) 20) as [Hlt|Hge].
    + rewrite (Hshort Hlt), length_app, repeat_length. lia.
    + rewrite (Hlong Hge), length_firstn. lia.
  - split; [reflexivity|]. split; [reflexivity|].
    repeat constructor.
Qed.

(** C4 on a revision of three bytes and on one of 21 bytes. *)
Lemma normalizeRevision_sample :
  normalizeRevision [x01; x02; x03] = [x01; x02; x03] ++ repeat x00 17 /\
  normalizeRevision (repeat x07 21) = repeat x07 20.
Proof.
  split.
  - apply (proj1 (proj2 (normalizeRevision_pads_or_truncates [x01; x02; x03]))).
    simpl. lia.
  - apply (proj1 (proj2 (proj2 (normalizeRevision_pads_or_truncates (repeat x07 21))))).
    simpl. lia.
Defined.

End StorageClaims.

(** ** Claims on [Stage.Run] *)

Section RunClaims.

Import Processing.

Variable env : Env.

Lemma accounted_step (s s' : State) :
  accounted s -> step env s s' -> accounted s'.
Proof.
  unfold accounted, workers. intros [Hcap Hpc] Hstep.
  destruct Hstep; unfold workers in *;
    cbn [semCur pc goroutines afterSelect ok negb fst snd] in *;
    try (split; [lengths | lengths]; fail);
    try (destruct p as [| | |[err'|]]; split; lengths; fail).
Qed.

Lemma reachable_accounted (s : State) : reachable env s -> accounted s.
Proof.
  induction 1 as [|s s' _ IH Hstep].
  - unfold accounted, workers. simpl. lia.
  - exact (accounted_step s s' IH Hstep).
Qed.

(** Once past the loop the coordinator stays there: no item is received
    any more and no goroutine is started. *)
Lemma pastLoop_step (s s' : State) :
  pastLoop s -> step env s s' ->
  pastLoop s' /\
  (exists more, input s' = input s ++ more) /\
  List.length (goroutines s') <= List.length (goroutines s).
Proof.
  unfold pastLoop. intros Hpast Hstep.
  destruct Hstep; cbn [pc input goroutines] in *;
    try (destruct Hpast as [Hp|[? Hp]]; discriminate Hp);
    try (split; [eauto | split; [exists []; now rewrite app_nil_r | lengths]]; fail).
  split; [exact Hpast | split; [eauto | lia]].
Qed.

Lemma pastLoop_steps (s s' : State) :
  steps env s s' -> pastLoop s ->
  pastLoop s' /\
  (exists more, input s' = input s ++ more) /\
  List.length (goroutines s') <= List.length (goroutines s).
Proof.
  induction 1 as [s | s s1 s2 Hstep _ IH]; intros Hpast.
  - split; [exact Hpast | split; [exists []; now rewrite app_nil_r | lia]].
  - destruct (pastLoop_step s s1 Hpast Hstep) as [Hpast1 [[m1 Hin1] Hlen1]].
    destruct (IH Hpast1) as [Hpast2 [[m2 Hin2] Hlen2]].
    split; [exact Hpast2 | split; [|lia]].
    exists (m1 ++ m2). now rewrite Hin2, Hin1, app_assoc.
Qed.

(** C3.  Bounded concurrency.  The semaphore has capacity 25.  In every
    state of a run the goroutines started and not yet finished are at most
    as many as the units held, which are at most 25.  A goroutine is only
    started by the coordinator at its [select], holding the unit it
    acquired for it, and with the item it took from the input; a goroutine
    only ends by giving one unit back, whether its item failed or not. *)
Theorem Run_bounded_concurrency (s : State) :
  reachable env s ->
  workers = 25 /\
  List.length (goroutines s) <= semCur s /\
  semCur s <= workers /\
  List.length (goroutines s) <= workers /\
  (forall s', step env s s' ->
     List.length (goroutines s) < List.length (goroutines s') ->
     pc s = AtSelect /\
     semCur s = List.length (goroutines s) + 1 /\
     exists item, input s = item :: input s' /\
                  goroutines s' = goroutines s ++ [AtBody item]) /\
  (forall s', step env s s' ->
     List.length (goroutines s') < List.length (goroutines s) ->
     semCur s = S (semCur s')).
Proof.
  intros Hreach. pose proof (reachable_accounted s Hreach) as [Hcap Hpc].
  assert (Hle : List.length (goroutines s) <= semCur s).
  { destruct (pc s) as [| | |[err|]]; lia || contradiction. }
  split; [reflexivity|]. split; [exact Hle|]. split; [exact Hcap|].
  split; [lia|]. split.
  - intros s' Hstep Hgrow.
    destruct Hstep; cbn [semCur pc goroutines input afterSelect ok negb fst snd] in *;
      try (exfalso; lengths; fail).
    split; [reflexivity | split; [exact Hpc | eauto]].
  - intros s' Hstep Hshrink.
    destruct Hstep; cbn [semCur pc goroutines input afterSelect ok negb fst snd] in *;
      try (exfalso; lengths; fail).
    reflexivity.
Qed.

(** C2, what the code does.  [Run] never returns [nil].  When the loop is
    left the coordinator still holds the unit it acquired at the top of that
    iteration, so the units held are one more than the goroutines still
    running and [sem.Acquire(ctx, workers)] is never granted all 25: after
    the input is closed [Run] waits, and returns only when the context is
    done, with its error. *)
Theorem Run_never_returns_nil (s : State) :
  reachable env s ->
  pc s <> Returned None /\
  (pc s = AtDrain ->
   semCur s = List.length (goroutines s) + 1 /\
   ~ semCur s + workers <= workers /\
   forall s', step env s s' ->
     pc s' = AtDrain \/ exists err, ctxErr s = Some err /\ pc s' = Returned (Some err)).
Proof.
  intros Hreach. pose proof (reachable_accounted s Hreach) as [Hcap Hpc]. split.
  - intros Hret. rewrite Hret in Hpc. exact Hpc.
  - intros Hdrain. rewrite Hdrain in Hpc.
    split; [exact Hpc | split; [lia|]].
    intros s' Hstep.
    destruct Hstep; cbn [semCur pc goroutines ctxErr] in *;
      try discriminate Hdrain; try (now left); try (right; eauto; fail).
    exfalso. lia.
Qed.

Lemma cons_neq_self {A : Type} (x : A) (l : list A) : x :: l <> l.
Proof. intros H. apply (f_equal (@List.length A)) in H. simpl in H. lia. Qed.

Lemma cons_snoc_neq_self {A : Type} (x y : A) (l : list A) : (x :: l) ++ [y] <> l.
Proof. intros H. apply (f_equal (@List.length A)) in H. simpl in H. lengths. Qed.

(** C1, what the code does.  When the [select] takes an error from the
    error channel the coordinator logs it, and with [ok] still [false]
    leaves the loop: it goes to the final [Acquire] with the unit of that
    iteration still held, and from then on receives no item and starts no
    goroutine, whatever is sent on the input. *)
Theorem Run_worker_error_ends_loop (s : State) (err : Error) (rest : list Error) :
  pc s = AtSelect -> wErr s = err :: rest ->
  (exists s', step env s s' /\ wErr s' = rest) /\
  (forall s', step env s s' -> wErr s' = rest ->
     pc s' = AtDrain /\
     semCur s' = semCur s /\
     goroutines s' = goroutines s /\
     input s' = input s /\
     logged (world s') =
       logged (world s) ++ [String.append "worker returned an error: " err] /\
     forall s'', steps env s' s'' ->
       pastLoop s'' /\
       (exists more, input s'' = input s' ++ more) /\
       List.length (goroutines s'') <= List.length (goroutines s')).
Proof.
  intros Hpc Herr. split.
  - destruct s as [c i cl n e p g w]. cbn [pc wErr] in *. subst p e.
    eexists. split; [apply run_worker_error | reflexivity].
  - intros s' Hstep Hrest.
    destruct Hstep; cbn [semCur pc goroutines input wErr world afterSelect ok negb fst snd] in *;
      try discriminate Hpc;
      try (subst; exfalso; eapply cons_neq_self; eassumption);
      try (subst; exfalso; eapply cons_snoc_neq_self; eassumption).
    injection Herr as -> _.
    repeat (split; [reflexivity|]).
    intros s'' Hsteps. apply (pastLoop_steps _ _ Hsteps). now left.
Qed.

(** C9, as the code has it.  The final [sem.Acquire(ctx, workers)] is made
    with the context of the run: when the context is done while [Run]
    waits there, [Run] can return at once with the context's error, and
    the goroutines still running are left running.  An error that [Run]
    returns from there is the error of the context, and the return neither
    waits for a goroutine nor takes a unit. *)
Theorem Run_drain_returns_on_cancellation (s : State) :
  pc s = AtDrain ->
  (forall err, ctxErr s = Some err ->
     step env s (St (Some err) (input s) (inputClosed s) (semCur s) (wErr s)
                    (Returned (Some err)) (goroutines s) (world s))) /\
  (forall s' e, step env s s' -> pc s' = Returned (Some e) ->
     ctxErr s = Some e /\ goroutines s' = goroutines s /\ semCur s' = semCur s).
Proof.
  intros Hdrain. split.
  - intros err Hctx. destruct s as [c i cl n e p g w]. cbn in *. subst c p.
    apply run_drain_failed.
  - intros s' e' Hstep Hret.
    destruct Hstep; cbn [semCur pc goroutines ctxErr] in *;
      try discriminate Hdrain; try (subst; discriminate Hret).
    injection Hret as <-. repeat split.
Qed.

End RunClaims.

(** ** A read failure in the pool *)

Section ReadFailureClaims.

Import Filepath Processing.

(** C7, what the code does.  When the walk of an item's working tree meets
    a matched file that cannot be read, [processGit] returns an error and
    [Storer.Store] is not called: the list of stored results is what it
    was, so no partial digest list is persisted.  The pool does not stay
    untouched, though: the goroutine sends its error, and when the
    [select] of the coordinator takes it the loop is left, so that the
    items waiting in the input are never received. *)
Theorem read_failure_stores_nothing_ends_admission (env : Env) ctx repoInfo w
    repoDir tree p info e :
  Preparation.Type_ repoInfo = Shared.Git ->
  CopyFromBucket env ctx (Preparation.Name repoInfo) = Ok repoDir ->
  PlainOpen env repoDir = None ->
  Worktree env repoDir = None ->
  Checkout env repoDir (Preparation.CheckoutOptions (setForce true repoInfo)) = Ok tree ->
  In (p, info) (visited repoDir tree) -> IsDir info = false ->
  In (Ext p) (Preparation.FileExts repoInfo) ->
  ReadFile env p = Err e ->
  exists e' w',
    processGit env ctx repoInfo w =
      (Some e', checkedOut env repoDir (setForce true repoInfo), w') /\
    stored w' = stored w /\
    forall i cl n g1 g2,
      steps env
        (St ctx i cl n [] AtSelect (g1 ++ AtBody repoInfo :: g2) w)
        (St ctx i cl n [] AtDrain (g1 ++ AtRelease :: g2)
            (logErrorf (String.append "worker returned an error: " e') w')) /\
      forall s'',
        steps env
          (St ctx i cl n [] AtDrain (g1 ++ AtRelease :: g2)
              (logErrorf (String.append "worker returned an error: " e') w')) s'' ->
        (pc s'' = AtDrain \/ exists r, pc s'' = Returned r) /\
        (exists more, input s'' = i ++ more) /\
        List.length (goroutines s'') <= List.length (g1 ++ AtRelease :: g2).
Proof.
  intros Hgit Hcopy Hopen Htree Hcheckout Hin Hfile Hext Hread.
  destruct (callEach_walkFn_err env (Preparation.FileExts repoInfo)
              (visited repoDir tree) [] p info e Hin Hfile Hext Hread) as [e' He'].
  assert (Hrun : processGit env ctx repoInfo w =
                 (Some e', checkedOut env repoDir (setForce true repoInfo),
                  removeRepoDir env repoDir w)).
  { rewrite (processGit_copied env ctx repoInfo w repoDir Hcopy), Hopen, Htree, Hcheckout.
    unfold Walk. now rewrite walk_visited, He'. }
  exists e', (removeRepoDir env repoDir w).
  split; [exact Hrun | split; [apply stored_removeRepoDir|]].
  intros i cl n g1 g2. split.
  - pose proof (worker_body env ctx i cl n [] AtSelect g1 repoInfo g2 w) as Hbody.
    unfold workerBody in Hbody. rewrite Hgit, Hrun in Hbody. cbn [fst snd workerNext] in Hbody.
    eapply steps_step; [exact Hbody|].
    eapply steps_step;
      [apply (worker_send env ctx i cl n [] AtSelect g1 e' g2); unfold workers; simpl; lia|].
    eapply steps_step; [|apply steps_refl].
    exact (run_worker_error env ctx i cl n e' [] (g1 ++ AtRelease :: g2)
             (removeRepoDir env repoDir w)).
  - intros s'' Hsteps.
    exact (pastLoop_steps env _ _ Hsteps (or_introl eq_refl)).
Qed.

End ReadFailureClaims.

(** ** Runs on the sample repository *)

Section SampleRuns.

Import Processing.

Example errorPending_reachable : reachable Sample.env errorPending.
Proof.
  pose proof (reachable_initial Sample.env) as H0.
  pose proof (reachable_step _ _ _ H0
    (producer_send _ None [] 0 [] AtAcquire [] emptyWorld unknownItem)) as H1.
  pose proof (reachable_step _ _ _ H1
    (run_acquire _ None [unknownItem] false 0 [] [] emptyWorld ltac:(unfold workers; lia))) as H2.
  pose proof (reachable_step _ _ _ H2
    (run_receive _ None unknownItem [] false 1 [] [] emptyWorld)) as H3.
  pose proof (reachable_step _ _ _ H3
    (run_acquire _ None [] false 1 [] [AtBody unknownItem] emptyWorld
       ltac:(unfold workers; lia))) as H4.
  pose proof (reachable_step _ _ _ H4
    (worker_body _ None [] false 2 [] AtSelect [] unknownItem [] emptyWorld)) as H5.
  pose proof (reachable_step _ _ _ H5
    (worker_send _ None [] false 2 [] AtSelect [] "unknown repository type" [] emptyWorld
       ltac:(unfold workers; simpl; lia))) as H6.
  exact (reachable_step _ _ _ H6
    (producer_send _ None [] 2 ["unknown repository type"] AtSelect [AtRelease]
       emptyWorld gitItem)).
Qed.

Example drainingIdle_reachable : reachable Sample.env drainingIdle.
Proof.
  pose proof (reachable_initial Sample.env) as H0.
  pose proof (reachable_step _ _ _ H0
    (producer_close _ None [] 0 [] AtAcquire [] emptyWorld)) as H1.
  pose proof (reachable_step _ _ _ H1
    (run_acquire _ None [] true 0 [] [] emptyWorld ltac:(unfold workers; lia))) as H2.
  exact (reachable_step _ _ _ H2 (run_receive_closed _ None 1 [] [] emptyWorld)).
Qed.

Example drainingCanceled_reachable : reachable Sample.env drainingCanceled.
Proof.
  pose proof (reachable_initial Sample.env) as H0.
  pose proof (reachable_step _ _ _ H0
    (producer_send _ None [] 0 [] AtAcquire [] emptyWorld gitItem)) as H1.
  pose proof (reachable_step _ _ _ H1
    (producer_close _ None [gitItem] 0 [] AtAcquire [] emptyWorld)) as H2.
  pose proof (reachable_step _ _ _ H2
    (run_acquire _ None [gitItem] true 0 [] [] emptyWorld ltac:(unfold workers; lia))) as H3.
  pose proof (reachable_step _ _ _ H3
    (run_receive _ None gitItem [] true 1 [] [] emptyWorld)) as H4.
  pose proof (reachable_step _ _ _ H4
    (run_acquire _ None [] true 1 [] [AtBody gitItem] emptyWorld
       ltac:(unfold workers; lia))) as H5.
  pose proof (reachable_step _ _ _ H5
    (run_receive_closed _ None 2 [] [AtBody gitItem] emptyWorld)) as H6.
  exact (reachable_step _ _ _ H6
    (context_done _ [] true 2 [] AtDrain [AtBody gitItem] emptyWorld Canceled)).
Qed.

(** C3 in the state where one goroutine is left and two units are held. *)
Lemma Run_bounded_concurrency_sample :
  reachable Sample.env errorPending /\
  List.length (goroutines errorPending) <= workers.
Proof.
  split; [exact errorPending_reachable|].
  exact (proj1 (proj2 (proj2 (proj2
           (Run_bounded_concurrency Sample.env errorPending errorPending_reachable))))).
Defined.

(** C2 on a closed input without items: the coordinator waits at the final
    [Acquire] holding one unit, and the only step left to the run is the
    end of the context. *)
Lemma Run_never_returns_nil_sample :
  reachable Sample.env drainingIdle /\
  semCur drainingIdle = 1 /\
  forall s', step Sample.env drainingIdle s' ->
    pc s' = AtDrain \/
    exists err, ctxErr drainingIdle = Some err /\ pc s' = Returned (Some err).
Proof.
  split; [exact drainingIdle_reachable|].
  destruct (proj2 (Run_never_returns_nil Sample.env drainingIdle drainingIdle_reachable)
              eq_refl) as [Hheld [_ Hnext]].
  split; [exact Hheld | exact Hnext].
Defined.

(** On that input nothing moves but the context. *)
Example Run_closed_input_waits (s' : State) :
  step Sample.env drainingIdle s' ->
  exists err, s' = St (Some err) [] true 1 [] AtDrain [] emptyWorld.
Proof.
  unfold drainingIdle. intros Hstep. inversion Hstep; subst;
    try (exfalso; unfold workers in *; lia);
    try match goal with
        | H : _ ++ _ :: _ = [] |- _ => destruct (app_cons_not_nil _ _ _ (eq_sym H))
        end.
  eauto.
Qed.

(** C1 in the sample run: the error of the first item is taken at the
    [select]; the second item stays in the input for good. *)
Lemma Run_worker_error_ends_loop_sample :
  step Sample.env errorPending
    (St None [gitItem] false 2 [] AtDrain [AtRelease]
       (logErrorf "worker returned an error: unknown repository type" emptyWorld)) /\
  forall s'',
    steps Sample.env
      (St None [gitItem] false 2 [] AtDrain [AtRelease]
         (logErrorf "worker returned an error: unknown repository type" emptyWorld)) s'' ->
    pastLoop s'' /\
    (exists more, input s'' = [gitItem] ++ more) /\
    List.length (goroutines s'') <= 1.
Proof.
  assert (Hstep : step Sample.env errorPending
            (St None [gitItem] false 2 [] AtDrain [AtRelease]
               (logErrorf "worker returned an error: unknown repository type" emptyWorld))).
  { exact (run_worker_error Sample.env None [gitItem] false 2
             "unknown repository type" [] [AtRelease] emptyWorld). }
  split; [exact Hstep|].
  exact (proj2 (proj2 (proj2 (proj2 (proj2
           (proj2 (Run_worker_error_ends_loop Sample.env errorPending
                     "unknown repository type" [] eq_refl eq_refl)
              _ Hstep eq_refl)))))).
Defined.

(** C9 in the sample run. *)
Lemma Run_drain_returns_on_cancellation_sample :
  reachable Sample.env drainingCanceled /\
  step Sample.env drainingCanceled
    (St (Some Canceled) [] true 2 [] (Returned (Some Canceled)) [AtBody gitItem] emptyWorld).
Proof.
  split; [exact drainingCanceled_reachable|].
  exact (proj1 (Run_drain_returns_on_cancellation Sample.env drainingCanceled eq_refl)
           Canceled eq_refl).
Defined.

(** C9 as stated fails: the context is cancelled while [Run] waits at the
    final [Acquire], and [Run] returns while the goroutine of the item is
    still at its body. *)
Lemma Run_returns_with_worker_running :
  reachable Sample.env drainingCanceled /\
  pc drainingCanceled = AtDrain /\
  step Sample.env drainingCanceled
    (St (Some Canceled) [] true 2 [] (Returned (Some Canceled)) [AtBody gitItem] emptyWorld) /\
  goroutines
    (St (Some Canceled) [] true 2 [] (Returned (Some Canceled)) [AtBody gitItem] emptyWorld) =
  [AtBody gitItem].
Proof.
  split; [exact drainingCanceled_reachable|]. split; [reflexivity|].
  split; [|reflexivity].
  exact (run_drain_failed Sample.env Canceled [] true 2 [] [AtBody gitItem] emptyWorld).
Qed.

End SampleRuns.

(** * Further properties of the code *)

(** ** [filepath.Ext] and [strings.ReplaceAll], as the walks use them *)

Section PathFacts.

Import Filepath.

Lemma string_of_list_ascii_app (a b : list ascii) :
  string_of_list_ascii (a ++ b) =
  String.append (string_of_list_ascii a) (string_of_list_ascii b).
Proof. induction a as [|c a IH]; simpl; [reflexivity | now rewrite IH]. Qed.


Lemma append_assoc (a b c : string) :
  String.append (String.append a b) c = String.append a (String.append b c).
Proof. induction a as [|x a IH]; simpl; [reflexivity | now rewrite IH]. Qed.

Lemma append_empty_r (a : string) : String.append a "" = a.
Proof. induction a as [|x a IH]; simpl; [reflexivity | now rewrite IH]. Qed.

(** What the loop of [Ext] returns: nothing, or the bytes from a dot on,
    where the bytes behind the dot hold neither a dot nor a separator. *)
Lemma extLoop_cases (rpath : list ascii) :
  forall suffix,
  extLoop rpath suffix = "" \/
  exists behind before,
    rpath = behind ++ "."%char :: before /\
    ~ In "."%char behind /\ ~ In "/"%char behind /\
    extLoop rpath suffix =
      String "."%char (String.append (string_of_list_ascii (rev behind)) suffix).
Proof.
  induction rpath as [|c rest IH]; intros suffix; simpl.
  - now left.
  - unfold IsPathSeparator. destruct (Ascii.eqb_spec c "/"%char) as [->|Hsep]; [now left|].
    destruct (Ascii.eqb_spec c "."%char) as [->|Hdot].
    + right. exists [], rest. simpl. auto.
    + destruct (IH (String c suffix)) as [Hnone | [behind [before [-> [Hd [Hs Hext]]]]]].
      * now left.
      * right. exists (c :: behind), before. simpl.
        split; [reflexivity|]. split; [intros [?|?]; [congruence | auto]|].
        split; [intros [?|?]; [congruence | auto]|].
        rewrite Hext, string_of_list_ascii_app, append_assoc. reflexivity.
Qed.

(** X1.  The extension that the walk functions compare with the requested
    ones is a suffix of the path, and it is either empty or a dot followed
    by bytes that are neither a dot nor a separator.  So an entry of the
    extension list of any other shape matches no file. *)
Theorem Ext_dotted_suffix (p : string) :
  exists stem,
    p = String.append stem (Ext p) /\
    (Ext p = "" \/
     exists t, Ext p = String "."%char t /\ noChar "."%char t /\ noChar "/"%char t).
Proof.
  unfold Ext.
  destruct (extLoop_cases (rev (list_ascii_of_string p)) "")
    as [-> | [behind [before [Hrev [Hdot [Hsep ->]]]]]].
  - exists p. split; [now rewrite append_empty_r | now left].
  - exists (string_of_list_ascii (rev before)). rewrite append_empty_r. split.
    + apply (f_equal (@rev ascii)) in Hrev. rewrite rev_involutive in Hrev.
      rewrite rev_app_distr in Hrev. simpl in Hrev. rewrite <- app_assoc in Hrev.
      rewrite <- (string_of_list_ascii_of_string p), Hrev.
      now rewrite string_of_list_ascii_app.
    + right. exists (string_of_list_ascii (rev behind)).
      unfold noChar. rewrite list_ascii_of_string_of_list_ascii.
      split; [reflexivity|]. split; intros Hin; apply in_rev in Hin; contradiction.
Qed.






(** *** The paths of a walk from a clean root *)













(** [filepath.Clean] and [filepath.Join] in full on a few paths, and the
    roots that are left out of the walks of this file. *)
Example Clean_examples :
  map Clean ["a//b/./c/.."; "/../a"; "../../a"; "a/../.."; "/"; "./repo"; "."; "";
             "/tmp/abc/"; "//a"; "abc"] =
    ["a/b"; "/a"; "../../a"; ".."; "/"; "repo"; "."; "."; "/tmp/abc"; "/a"; "abc"] /\
  map (fun root => JoinCleaned root "a.c") ["."; "./repo"; "/tmp/abc/"; "/"; "/tmp/abc"; "repo"] =
    ["a.c"; "repo/a.c"; "/tmp/abc/a.c"; "/a.c"; "/tmp/abc/a.c"; "repo/a.c"] /\
  map cleanDir ["."; "./repo"; "/tmp/abc/"; "/"; ""; "/tmp/abc"; "repo"] =
    [false; false; false; false; false; true; true].
Proof. repeat split. Qed.


End PathFacts.

(** ** [buildFileHashes] of the caller tool *)

Section CallerWalk.

Import Filepath.

Variable md5_Sum : list Byte.byte -> list Byte.byte.
Variable ReadFile : string -> result (list Byte.byte).
Variable repoDir : string.

Lemma Caller_rangeExts_closed (p : string) :
  forall (l : list string) (acc : list Caller.FileResult),
  Caller.rangeExts md5_Sum ReadFile repoDir p l acc =
  match count_occ string_dec l (Ext p) with
  | O => Ok acc
  | S k =>
      match ReadFile p with
      | Err e => Err e
      | Ok buf =>
          Ok (acc ++ repeat {| Caller.Path := Strings.ReplaceAll p repoDir "";
                               Caller.Hash := md5_Sum buf |} (S k))
      end
  end.
Proof.
  induction l as [|ext rest IH]; intros acc.
  - reflexivity.
  - rewrite eqb_count_occ. cbn [Caller.rangeExts].
    destruct (String.eqb (Ext p) ext).
    + destruct (ReadFile p) as [buf|e] eqn:Hread; [|reflexivity].
      rewrite IH.
      destruct (count_occ string_dec rest (Ext p)) as [|k].
      * reflexivity.
      * rewrite <- app_assoc. reflexivity.
    + apply IH.
Qed.

Lemma fileExts_NoDup : NoDup Caller.fileExts.
Proof.
  unfold Caller.fileExts.
  repeat (constructor; [simpl; intros H;
                        repeat (destruct H as [H|H]; [discriminate H|]); exact H|]).
  constructor.
Qed.

Lemma existsb_eqb_In (x : string) (l : list string) :
  existsb (String.eqb x) l = true <-> In x l.
Proof.
  rewrite existsb_exists. split.
  - intros [y [Hin Heq]]. apply String.eqb_eq in Heq. now subst.
  - intros Hin. exists x. split; [exact Hin | apply String.eqb_refl].
Qed.

(** One call of the walk function of [buildFileHashes]. *)
Lemma Caller_walkFn_cases (p : string) (info : FileInfo) (acc : list Caller.FileResult) :
  Caller.walkFn md5_Sum ReadFile repoDir p info acc =
  if hashedByCaller (p, info) then
    match ReadFile p with
    | Err e => Err e
    | Ok buf => Ok (acc ++ [{| Caller.Path := Strings.ReplaceAll p repoDir "";
                               Caller.Hash := md5_Sum buf |}])
    end
  else Ok acc.
Proof.
  unfold Caller.walkFn, hashedByCaller. cbn [fst snd].
  destruct (IsDir info); [reflexivity|]. cbn [negb andb].
  rewrite Caller_rangeExts_closed.
  pose proof (proj1 (NoDup_count_occ string_dec Caller.fileExts) fileExts_NoDup (Ext p)) as Hle.
  destruct (existsb (String.eqb (Ext p)) Caller.fileExts) eqn:Hex.
  - apply existsb_eqb_In, (count_occ_In string_dec) in Hex.
    destruct (count_occ string_dec Caller.fileExts (Ext p)) as [|[|k]]; [lia | reflexivity | lia].
  - destruct (count_occ string_dec Caller.fileExts (Ext p)) as [|k] eqn:Hk; [reflexivity|].
    assert (Hin : In (Ext p) Caller.fileExts) by (apply (count_occ_In string_dec); lia).
    apply existsb_eqb_In in Hin. congruence.
Qed.

Lemma Caller_callEach_ok (visits : list (string * FileInfo)) :
  forall acc rs,
  callEach (Caller.walkFn md5_Sum ReadFile repoDir) visits acc = Ok rs ->
  exists new, rs = acc ++ new /\ Forall2 (callerEntry md5_Sum ReadFile repoDir) (filter hashedByCaller visits) new.
Proof.
  induction visits as [|[p info] rest IH]; intros acc rs H; simpl in H.
  - injection H as <-. exists []. split; [now rewrite app_nil_r | constructor].
  - rewrite Caller_walkFn_cases in H. cbn [filter].
    destruct (hashedByCaller (p, info)); [|exact (IH _ _ H)].
    destruct (ReadFile p) as [buf|e] eqn:Hread; [|discriminate].
    destruct (IH _ _ H) as [new [-> Hall]].
    eexists. split; [now rewrite <- app_assoc|].
    constructor; [|exact Hall]. split; [reflexivity | cbn; eauto].
Qed.

Lemma Caller_callEach_err (visits : list (string * FileInfo)) :
  forall acc e,
  callEach (Caller.walkFn md5_Sum ReadFile repoDir) visits acc = Err e ->
  exists p info, In (p, info) visits /\ hashedByCaller (p, info) = true /\
                 ReadFile p = Err e.
Proof.
  induction visits as [|[p info] rest IH]; intros acc e H; simpl in H.
  - discriminate.
  - rewrite Caller_walkFn_cases in H.
    destruct (hashedByCaller (p, info)) eqn:Hh.
    + destruct (ReadFile p) as [buf|e'] eqn:Hread.
      * destruct (IH _ _ H) as [q [qi [Hin Hq]]]. exists q, qi. split; [now right | exact Hq].
      * injection H as <-. exists p, info. split; [now left | auto].
    + destruct (IH _ _ H) as [q [qi [Hin Hq]]]. exists q, qi. split; [now right | exact Hq].
Qed.

Lemma Caller_callEach_unreadable (visits : list (string * FileInfo)) :
  forall acc p info e,
  In (p, info) visits -> hashedByCaller (p, info) = true -> ReadFile p = Err e ->
  exists e', callEach (Caller.walkFn md5_Sum ReadFile repoDir) visits acc = Err e'.
Proof.
  induction visits as [|[q qi] rest IH]; intros acc p info e Hin Hh Hread.
  - destruct Hin.
  - simpl. destruct (Caller.walkFn md5_Sum ReadFile repoDir q qi acc) as [acc'|e'] eqn:Hq;
      [|eauto].
    destruct Hin as [[= -> ->]|Hin]; [|eapply IH; eassumption].
    rewrite Caller_walkFn_cases, Hh, Hread in Hq. discriminate.
Qed.


(** The entries of a successful [buildFileHashes], file by file. *)
Lemma buildFileHashes_entry_per_file_aux (tree : Node) :
  forall rs,
  Caller.buildFileHashes md5_Sum ReadFile repoDir tree = Ok rs ->
  Forall2 (callerEntry md5_Sum ReadFile repoDir)
    (filter hashedByCaller (visited repoDir tree)) rs.
Proof.
  unfold Caller.buildFileHashes, Walk. rewrite walk_visited. intros rs H.
  destruct (callEach _ (visited repoDir tree) []) as [rs'|e] eqn:Hwalk; [|discriminate].
  injection H as <-. destruct (Caller_callEach_ok _ _ _ Hwalk) as [new [-> Hall]].
  exact Hall.
Qed.

(** X3.  [buildFileHashes] returns one entry per file of the tree whose
    extension is one of its six, in the order of the walk: its list of
    extensions has no duplicate, so, unlike the walk of the processing
    stage, no file is entered twice.  It panics exactly when one of those
    files cannot be read, with the error of the first such file. *)
Theorem buildFileHashes_entry_per_file (tree : Node) :
  (forall rs,
     Caller.buildFileHashes md5_Sum ReadFile repoDir tree = Ok rs ->
     Forall2 (callerEntry md5_Sum ReadFile repoDir)
       (filter hashedByCaller (visited repoDir tree)) rs) /\
  (forall msg,
     Caller.buildFileHashes md5_Sum ReadFile repoDir tree = Err msg ->
     exists p info e,
       In (p, info) (visited repoDir tree) /\ hashedByCaller (p, info) = true /\
       ReadFile p = Err e /\ msg = String.append "failed during file walk: " e) /\
  (forall p info e,
     In (p, info) (visited repoDir tree) -> hashedByCaller (p, info) = true ->
     ReadFile p = Err e ->
     exists msg, Caller.buildFileHashes md5_Sum ReadFile repoDir tree = Err msg).
Proof.
  split; [exact (buildFileHashes_entry_per_file_aux tree)|].
  unfold Caller.buildFileHashes, Walk. rewrite walk_visited. split.
  - intros msg H.
    destruct (callEach _ (visited repoDir tree) []) as [rs'|e] eqn:Hwalk; [discriminate|].
    injection H as <-. destruct (Caller_callEach_err _ _ _ Hwalk) as [p [info [Hin [Hh Hr]]]].
    exists p, info, e. auto.
  - intros p info e Hin Hh Hread.
    destruct (Caller_callEach_unreadable _ [] p info e Hin Hh Hread) as [e' ->]. eauto.
Qed.


End CallerWalk.


(** A directory named like [repoDir] below it is taken out of the path as
    well. *)
Example buildFileHashes_nested_repoDir :
  Caller.buildFileHashes Sample.sum Sample.readAll "/a"
    (Filepath.Dir "a" [Filepath.Dir "a" [Filepath.File "x.c"]; Filepath.File "x.c"]) =
  Ok [ {| Caller.Path := "/x.c"; Caller.Hash := [Byte.x69; Byte.x68] |};
       {| Caller.Path := "/x.c"; Caller.Hash := [Byte.x69; Byte.x68] |} ].
Proof. reflexivity. Qed.

(** ** [fileHashesToDict] and [compareTwoResults] of the caller tool *)

Section CallerCompare.

Import Caller.

Lemma mapAssign_keys_In (m : HashMap) (k : list Byte.byte) (v : FileResult) :
  forall k', In k' (map fst (mapAssign m k v)) <-> k' = k \/ In k' (map fst m).
Proof.
  induction m as [|[k0 v0] m IH]; intros k'; simpl.
  - intuition auto.
  - destruct (hash_eq_dec k0 k) as [->|ne]; simpl.
    + intuition auto.
    + rewrite IH. intuition auto.
Qed.

Lemma mapAssign_NoDup (m : HashMap) (k : list Byte.byte) (v : FileResult) :
  NoDup (map fst m) -> NoDup (map fst (mapAssign m k v)).
Proof.
  induction m as [|[k0 v0] m IH]; simpl; intros Hnd.
  - constructor; [intros [] | constructor].
  - inversion Hnd as [|? ? Hnotin Hnd']; subst.
    destruct (hash_eq_dec k0 k) as [->|ne]; simpl.
    + constructor; assumption.
    + constructor; [|apply IH; assumption].
      rewrite mapAssign_keys_In. intros [->|Hin]; [congruence | contradiction].
Qed.

Lemma mapAssign_length (m : HashMap) (k : list Byte.byte) (v : FileResult) :
  List.length (mapAssign m k v) <= S (List.length m).
Proof.
  induction m as [|[k0 v0] m IH]; simpl; [lia|].
  destruct (hash_eq_dec k0 k); simpl; lia.
Qed.

Lemma mapLookup_assign (m : HashMap) (k : list Byte.byte) (v : FileResult) :
  forall k', mapLookup (mapAssign m k v) k' =
             if hash_eq_dec k k' then Some v else mapLookup m k'.
Proof.
  induction m as [|[k0 v0] m IH]; intros k'; simpl.
  - reflexivity.
  - destruct (hash_eq_dec k0 k) as [->|ne]; simpl.
    + destruct (hash_eq_dec k k'); reflexivity.
    + destruct (hash_eq_dec k0 k') as [->|ne'].
      * destruct (hash_eq_dec k k'); [congruence | reflexivity].
      * apply IH.
Qed.

Lemma mapLookup_None (m : HashMap) (k : list Byte.byte) :
  mapLookup m k = None <-> ~ In k (map fst m).
Proof.
  induction m as [|[k0 v0] m IH]; simpl.
  - intuition auto.
  - destruct (hash_eq_dec k0 k) as [->|ne].
    + split; [discriminate | intros H; exfalso; apply H; now left].
    + rewrite IH. intuition auto.
Qed.

Lemma fileHashesToDict_snoc (res : list FileResult) (fr : FileResult) :
  fileHashesToDict (res ++ [fr]) = mapAssign (fileHashesToDict res) (Hash fr) fr.
Proof. unfold fileHashesToDict. now rewrite fold_left_app. Qed.

Lemma fileHashesToDict_NoDup (res : list FileResult) :
  NoDup (map fst (fileHashesToDict res)).
Proof.
  induction res as [|fr res IH] using rev_ind.
  - constructor.
  - rewrite fileHashesToDict_snoc. now apply mapAssign_NoDup.
Qed.

Lemma fileHashesToDict_keys (res : list FileResult) :
  forall h, In h (map fst (fileHashesToDict res)) <-> In h (map Hash res).
Proof.
  induction res as [|fr res IH] using rev_ind; intros h.
  - reflexivity.
  - rewrite fileHashesToDict_snoc, mapAssign_keys_In, IH, map_app, in_app_iff.
    simpl. intuition auto.
Qed.

(** X5.  [fileHashesToDict] keeps one entry per hash: its keys are the
    hashes of the list, each once, and the entry of a hash is the last
    element of the list with that hash.  Files of equal content are one
    entry, so the map can be smaller than the list. *)
Theorem fileHashesToDict_last_wins (res : list FileResult) :
  NoDup (map fst (fileHashesToDict res)) /\
  (forall h, In h (map fst (fileHashesToDict res)) <-> In h (map Hash res)) /\
  (forall h, mapLookup (fileHashesToDict res) h =
             find (fun fr => if hash_eq_dec (Hash fr) h then true else false) (rev res)) /\
  List.length (fileHashesToDict res) <= List.length res.
Proof.
  split; [apply fileHashesToDict_NoDup|]. split; [apply fileHashesToDict_keys|]. split.
  - induction res as [|fr res IH] using rev_ind; intros h.
    + reflexivity.
    + rewrite fileHashesToDict_snoc, mapLookup_assign, rev_app_distr. simpl.
      destruct (hash_eq_dec (Hash fr) h); [reflexivity | apply IH].
  - induction res as [|fr res IH] using rev_ind.
    + simpl. lia.
    + rewrite fileHashesToDict_snoc, length_app. simpl.
      pose proof (mapAssign_length (fileHashesToDict res) (Hash fr) fr). lia.
Qed.

Lemma compare_fold (mapB : HashMap) (m : HashMap) :
  forall logs d,
  fold_left
    (fun (st : list string * Z) (entry : list Byte.byte * FileResult) =>
       match mapLookup mapB (fst entry) with
       | Some _ => st
       | None => (fst st ++ [Path (snd entry)], (snd st + 1)%Z)
       end) m (logs, d) =
  (logs ++ map (fun e => Path (snd e)) (filter (missingFrom mapB) m),
   (d + Z.of_nat (List.length (filter (missingFrom mapB) m)))%Z).
Proof.
  induction m as [|[k v] m IH]; intros logs d; cbn [fold_left filter].
  - simpl. now rewrite app_nil_r, Z.add_0_r.
  - change (missingFrom mapB (k, v))
      with (match mapLookup mapB k with None => true | Some _ => false end).
    cbn [fst snd].
    destruct (mapLookup mapB k); rewrite IH; cbn [fst snd map List.length].
    + reflexivity.
    + rewrite <- app_assoc. f_equal. lia.
Qed.

Lemma length_filter_split {A : Type} (f : A -> bool) (l : list A) :
  List.length l =
  List.length (filter f l) + List.length (filter (fun x => negb (f x)) l).
Proof.
  induction l as [|x l IH]; simpl; [reflexivity|].
  destruct (f x); simpl; lia.
Qed.

Lemma filter_map_fst {A B : Type} (g : A -> bool) (m : list (A * B)) :
  map fst (filter (fun e => g (fst e)) m) = filter g (map fst m).
Proof.
  induction m as [|[k v] m IH]; simpl; [reflexivity|].
  destruct (g k); simpl; now rewrite IH.
Qed.

Lemma missingFrom_hashIn (mapB : HashMap) (entry : list Byte.byte * FileResult) :
  missingFrom mapB entry = negb (hashIn (map fst mapB) (fst entry)).
Proof.
  unfold missingFrom, hashIn.
  destruct (mapLookup mapB (fst entry)) eqn:Hl;
    destruct (in_dec hash_eq_dec (fst entry) (map fst mapB)) as [Hin|Hout];
    try reflexivity; exfalso.
  - apply mapLookup_None in Hout. congruence.
  - apply mapLookup_None in Hl. contradiction.
Qed.

(** The entries of [m] missing from [mapB], counted on the keys. *)
Lemma missing_count (mapB m : HashMap) :
  List.length (filter (missingFrom mapB) m) =
  List.length (filter (fun k => negb (hashIn (map fst mapB) k)) (map fst m)).
Proof.
  rewrite <- (filter_map_fst (fun k => negb (hashIn (map fst mapB) k))), length_map.
  f_equal. apply filter_ext. intros e. apply missingFrom_hashIn.
Qed.

Lemma hashIn_true (keys : list (list Byte.byte)) (k : list Byte.byte) :
  hashIn keys k = true <-> In k keys.
Proof.
  unfold hashIn. destruct (in_dec hash_eq_dec k keys); split; auto; discriminate.
Qed.

(** Two lists without duplicates have as many elements of the one in the
    other as the other way round. *)
Lemma common_count (ka kb : list (list Byte.byte)) :
  NoDup ka -> NoDup kb ->
  List.length (filter (hashIn kb) ka) = List.length (filter (hashIn ka) kb).
Proof.
  intros Ha Hb. apply Permutation_length, NoDup_Permutation.
  - now apply NoDup_filter.
  - now apply NoDup_filter.
  - intros k. rewrite !filter_In, !hashIn_true. tauto.
Qed.

Lemma filter_nil_none {A : Type} (f : A -> bool) (l : list A) :
  List.length (filter f l) = 0 <-> forall x, In x l -> f x = false.
Proof.
  induction l as [|x l IH]; simpl.
  - split; [intros _ y [] | reflexivity].
  - destruct (f x) eqn:Hx; simpl.
    + split; [discriminate | intros H; specialize (H x (or_introl eq_refl)); congruence].
    + rewrite IH. split.
      * intros H y [<-|Hy]; auto.
      * intros H y Hy. apply H. now right.
Qed.

Lemma compareTwoResults_value (a b : list FileResult) :
  compareTwoResults a b =
  (map (fun e => Path (snd e))
     (filter (missingFrom (fileHashesToDict b)) (fileHashesToDict a)),
   (Z.of_nat (List.length (filter (missingFrom (fileHashesToDict b)) (fileHashesToDict a)))
    + max (Z.of_nat (List.length (fileHashesToDict b))
           - Z.of_nat (List.length (fileHashesToDict a))) 0)%Z).
Proof.
  unfold compareTwoResults. rewrite compare_fold. reflexivity.
Qed.

Lemma max_zero (x : Z) : max x 0 = Z.max x 0.
Proof. unfold max. rewrite Z.gtb_ltb. destruct (Z.ltb_spec 0 x); lia. Qed.

(** The number that [compareTwoResults] returns, on the keys of the two
    maps: the keys of the first that the second lacks, plus the surplus of
    keys of the second. *)
Lemma compareTwoResults_count (a b : list FileResult) :
  let ka := map fst (fileHashesToDict a) in
  let kb := map fst (fileHashesToDict b) in
  snd (compareTwoResults a b) =
  (Z.of_nat (List.length (filter (fun k => negb (hashIn kb k)) ka))
   + Z.max (Z.of_nat (List.length kb) - Z.of_nat (List.length ka)) 0)%Z.
Proof.
  intros ka kb. rewrite compareTwoResults_value. cbn [snd].
  rewrite missing_count, max_zero. unfold ka, kb. now rewrite !length_map.
Qed.

(** X6.  The number that [compareTwoResults] returns depends on the two
    sets of hashes only, not on paths, order or repetitions: it is the same
    with the arguments exchanged, it is never negative, and it is 0 exactly
    when every hash of the one list is a hash of the other and conversely. *)
Theorem compareTwoResults_symmetric (a b : list FileResult) :
  snd (compareTwoResults a b) = snd (compareTwoResults b a) /\
  (0 <= snd (compareTwoResults a b))%Z /\
  (snd (compareTwoResults a b) = 0%Z <->
   forall h, In h (map Hash a) <-> In h (map Hash b)).
Proof.
  rewrite !compareTwoResults_count. cbv zeta.
  pose proof (fileHashesToDict_NoDup a) as Hna.
  pose proof (fileHashesToDict_NoDup b) as Hnb.
  pose proof (fileHashesToDict_keys a) as Hka.
  pose proof (fileHashesToDict_keys b) as Hkb.
  revert Hna Hnb Hka Hkb.
  generalize (map fst (fileHashesToDict a)) as ka.
  generalize (map fst (fileHashesToDict b)) as kb.
  intros kb ka Hna Hnb Hka Hkb.
  pose proof (length_filter_split (hashIn kb) ka) as Hsa.
  pose proof (length_filter_split (hashIn ka) kb) as Hsb.
  pose proof (common_count ka kb Hna Hnb) as Hcommon.
  split; [lia|]. split; [lia|]. split.
  - intros Hzero.
    assert (Hd : List.length (filter (fun k => negb (hashIn kb k)) ka) = 0) by lia.
    assert (Hincl : incl ka kb).
    { intros k Hk. apply (proj1 (filter_nil_none _ _) Hd) in Hk.
      apply negb_false_iff, hashIn_true in Hk. exact Hk. }
    assert (Hincl' : incl kb ka) by (apply (NoDup_length_incl Hna); [lia | exact Hincl]).
    intros h. rewrite <- Hka, <- Hkb. split; [apply Hincl | apply Hincl'].
  - intros Hsame.
    assert (Hincl : incl ka kb) by (intros k Hk; apply Hkb, Hsame, Hka, Hk).
    assert (Hincl' : incl kb ka) by (intros k Hk; apply Hka, Hsame, Hkb, Hk).
    assert (Hd : List.length (filter (fun k => negb (hashIn kb k)) ka) = 0).
    { apply filter_nil_none. intros k Hk. apply negb_false_iff, hashIn_true, Hincl, Hk. }
    pose proof (NoDup_incl_length Hnb Hincl'). lia.
Qed.

Lemma mapAssign_In (m : HashMap) (k : list Byte.byte) (v : FileResult) :
  forall e, In e (mapAssign m k v) -> e = (k, v) \/ In e m.
Proof.
  induction m as [|[k0 v0] m IH]; intros e; simpl.
  - intros [<-|[]]. now left.
  - destruct (hash_eq_dec k0 k) as [->|ne]; simpl.
    + intros [<-|Hin]; auto.
    + intros [<-|Hin]; [auto|]. destruct (IH e Hin); auto.
Qed.

Lemma fileHashesToDict_In (res : list FileResult) :
  forall k v, In (k, v) (fileHashesToDict res) -> In v res /\ Hash v = k.
Proof.
  induction res as [|fr res IH] using rev_ind; intros k v Hin.
  - destruct Hin.
  - rewrite fileHashesToDict_snoc in Hin. apply mapAssign_In in Hin.
    rewrite in_app_iff. destruct Hin as [[= -> ->]|Hin].
    + split; [right; now left | reflexivity].
    + destruct (IH k v Hin). auto.
Qed.

(** X7.  What [compareTwoResults] logs: every line is the path of an
    element of the first list whose hash no element of the second list
    has, and there is one line per such hash.  The number returned is at
    least the number of lines. *)
Theorem compareTwoResults_logged (a b : list FileResult) :
  Forall (fun line => exists fr, In fr a /\ Path fr = line /\
                                 ~ In (Hash fr) (map Hash b))
         (fst (compareTwoResults a b)) /\
  List.length (fst (compareTwoResults a b)) =
    List.length (filter (fun k => negb (hashIn (map Hash b) k))
                        (map fst (fileHashesToDict a))) /\
  (Z.of_nat (List.length (fst (compareTwoResults a b))) <= snd (compareTwoResults a b))%Z.
Proof.
  rewrite compareTwoResults_value. cbn [fst snd]. rewrite length_map. split; [|split].
  - apply Forall_forall. intros line Hline. apply in_map_iff in Hline.
    destruct Hline as [[k v] [<- Hin]]. apply filter_In in Hin. destruct Hin as [Hin Hmiss].
    destruct (fileHashesToDict_In a k v Hin) as [Hv Hk]. exists v. cbn [snd].
    split; [exact Hv | split; [reflexivity|]].
    rewrite missingFrom_hashIn in Hmiss. apply negb_true_iff in Hmiss. cbn [fst] in Hmiss.
    intros Hb. apply fileHashesToDict_keys, hashIn_true in Hb. congruence.
  - rewrite missing_count. f_equal. apply filter_ext. intros k. f_equal.
    unfold hashIn.
    destruct (in_dec hash_eq_dec k (map fst (fileHashesToDict b))) as [H1|H1];
      destruct (in_dec hash_eq_dec k (map Hash b)) as [H2|H2]; try reflexivity; exfalso.
    + apply fileHashesToDict_keys in H1. contradiction.
    + apply fileHashesToDict_keys in H2. contradiction.
  - rewrite max_zero. lia.
Qed.

End CallerCompare.

(** ** The request of [buildGit] *)

Section CallerRequest.

Import Caller.

Variable encode : list Byte.byte -> string.

Lemma writeHashes_joined (n : nat) (fileResults : list FileResult) :
  forall i b,
  i + List.length fileResults = n ->
  writeHashes encode n i fileResults b =
  String.append b (String.concat "," (map (hashObject encode) fileResults)).
Proof.
  induction fileResults as [|fr rest IH]; intros i b Hlen.
  - simpl. now rewrite append_empty_r.
  - cbn [writeHashes]. rewrite IH by (cbn [List.length] in Hlen; lia).
    cbn [List.length] in Hlen. rewrite append_assoc. f_equal.
    destruct rest as [|fr' rest'].
    + cbn [List.length] in Hlen.
      replace (Nat.eqb i (n - 1)) with true by (symmetry; apply Nat.eqb_eq; lia).
      simpl. now rewrite append_empty_r.
    + cbn [List.length] in Hlen.
      replace (Nat.eqb i (n - 1)) with false by (symmetry; apply Nat.eqb_neq; lia).
      cbn [map String.concat]. now rewrite append_assoc.
Qed.

(** X8.  The request that [buildGit] writes is its fixed head, the objects
    of the hashes joined by single commas, and the closing brackets: no
    comma before the first object or behind the last one, and an empty
    array for no file. *)
Theorem requestBody_joined (fileResults : list FileResult) :
  requestBody encode fileResults =
  String.append
    (String.concat ""
       ["{"; quote; "name"; quote; ":"; quote; "protobuf"; quote; ", ";
        quote; "file_hashes"; quote; ": ["])
    (String.append (String.concat "," (map (hashObject encode) fileResults)) "]}").
Proof.
  unfold requestBody. rewrite writeHashes_joined by reflexivity.
  now rewrite append_assoc.
Qed.

End CallerRequest.

(** The request for no file and for two files, with the bytes of a hash
    written as a letter each. *)
Example requestBody_samples :
  let encode := fun h : list Byte.byte => string_of_list_ascii (map (fun _ => "h"%char) h) in
  let q := Caller.quote in
  Caller.requestBody encode [] =
    String.concat q ["{"; "name"; ":"; "protobuf"; ", "; "file_hashes"; ": []}"] /\
  Caller.requestBody encode
    [ {| Caller.Path := "/a.c"; Caller.Hash := [Byte.x01] |};
      {| Caller.Path := "/b.c"; Caller.Hash := [Byte.x02; Byte.x03] |} ] =
    String.concat q ["{"; "name"; ":"; "protobuf"; ", "; "file_hashes";
                     ": [{"; "hash"; ": "; "h"; "},{"; "hash"; ": "; "hh"; "}]}"].
Proof. split; reflexivity. Qed.

(** ** More on [processGit] *)

Section ProcessGitMore.

Import Filepath Processing.

Lemma rangeExts_same_files (env : Env) (remove : string -> option Error) (p : string) :
  forall exts acc,
  rangeExts (withRemoveAll remove env) p exts acc = rangeExts env p exts acc.
Proof.
  induction exts as [|ext rest IH]; intros acc; simpl; [reflexivity|].
  destruct (String.eqb (Ext p) ext); [|apply IH].
  destruct (ReadFile env p); [apply IH | reflexivity].
Qed.

Lemma callEach_same_files (env : Env) (remove : string -> option Error)
    (exts : list string) (visits : list (string * FileInfo)) :
  forall acc,
  callEach (walkFn (withRemoveAll remove env) exts) visits acc =
  callEach (walkFn env exts) visits acc.
Proof.
  induction visits as [|[p info] rest IH]; intros acc; simpl; [reflexivity|].
  unfold walkFn at 1 3. destruct (IsDir info); [apply IH|].
  rewrite rangeExts_same_files. destruct (rangeExts env p exts acc); [apply IH | reflexivity].
Qed.

(** X9.  The private directory is removed on every way out of
    [processGit]: once the copy from the bucket has succeeded, the
    directory it returned is removed exactly once, whether the item is
    stored or fails at the opening, the checkout, the walk or the storer;
    before that nothing is removed.  A removal that fails is logged and
    changes neither the error returned nor what is stored. *)
Theorem processGit_removes_repoDir (env : Env) ctx repoInfo w :
  match CopyFromBucket env ctx (Preparation.Name repoInfo) with
  | Ok repoDir =>
      removed (snd (processGit env ctx repoInfo w)) = removed w ++ [repoDir] /\
      logged (snd (processGit env ctx repoInfo w)) =
        logged w ++
        match RemoveAll env repoDir with
        | Some e => [String.append "failed to remove repo folder: " e]
        | None => []
        end
  | Err e => processGit env ctx repoInfo w = (Some e, repoInfo, w)
  end /\
  forall remove,
    fst (processGit (withRemoveAll remove env) ctx repoInfo w) =
      fst (processGit env ctx repoInfo w) /\
    stored (snd (processGit (withRemoveAll remove env) ctx repoInfo w)) =
      stored (snd (processGit env ctx repoInfo w)).
Proof.
  assert (Hremoved : forall repoDir w0,
            removed (removeRepoDir env repoDir w0) = removed w0 ++ [repoDir] /\
            logged (removeRepoDir env repoDir w0) =
              logged w0 ++
              match RemoveAll env repoDir with
              | Some e => [String.append "failed to remove repo folder: " e]
              | None => []
              end).
  { intros repoDir w0. unfold removeRepoDir.
    destruct (RemoveAll env repoDir); simpl; [auto | now rewrite app_nil_r]. }
  split.
  - destruct (CopyFromBucket env ctx (Preparation.Name repoInfo)) as [repoDir|e] eqn:Hcopy.
    + rewrite (processGit_copied env ctx repoInfo w repoDir Hcopy).
      destruct (PlainOpen env repoDir); [apply Hremoved|].
      destruct (Worktree env repoDir); [apply Hremoved|].
      destruct (Checkout env repoDir _) as [tree|]; [|apply Hremoved].
      destruct (Walk repoDir tree _ []) as [frs|];
        [exact (Hremoved repoDir
                  (callStore (checkedOut env repoDir (setForce true repoInfo)) frs w))
        | apply Hremoved].
    + unfold processGit. now rewrite Hcopy.
  - intros remove.
    destruct (CopyFromBucket env ctx (Preparation.Name repoInfo)) as [repoDir|e] eqn:Hcopy.
    + rewrite (processGit_copied (withRemoveAll remove env) ctx repoInfo w repoDir Hcopy).
      rewrite (processGit_copied env ctx repoInfo w repoDir Hcopy).
      unfold checkedOut. cbn [withRemoveAll PlainOpen Worktree Checkout CheckoutBranch Store].
      destruct (PlainOpen env repoDir);
        [cbn [fst snd]; now rewrite !stored_removeRepoDir|].
      destruct (Worktree env repoDir);
        [cbn [fst snd]; now rewrite !stored_removeRepoDir|].
      destruct (Checkout env repoDir _) as [tree|];
        [|cbn [fst snd]; now rewrite !stored_removeRepoDir].
      unfold Walk. rewrite !walk_visited, callEach_same_files.
      destruct (callEach _ (visited repoDir tree) []); cbn [fst snd];
        now rewrite !stored_removeRepoDir.
    + unfold processGit. cbn [withRemoveAll CopyFromBucket]. now rewrite Hcopy.
Qed.


End ProcessGitMore.

Section ProcessGitMoreSample.

Import Processing.


End ProcessGitMoreSample.

(** ** More on [Stage.Run] *)

Section RunMore.

Import Processing.

Variable env : Env.

Lemma returnedForContext_step (s s' : State) :
  accounted s -> returnedForContext s -> step env s s' -> returnedForContext s'.
Proof.
  unfold returnedForContext, accounted, workers. intros [_ Hacc] Hret Hstep.
  destruct Hstep; cbn [semCur pc goroutines ctxErr afterSelect ok negb fst snd] in *;
    try exact I; try exact Hret; eauto 6.
  - destruct p; try exact I. destruct Hret as [e0 [Hnone _]]. discriminate Hnone.
  - exfalso. lia.
Qed.

Lemma reachable_returnedForContext (s : State) :
  reachable env s -> returnedForContext s.
Proof.
  induction 1 as [|s s' Hreach IH Hstep].
  - exact I.
  - exact (returnedForContext_step s s' (reachable_accounted env s Hreach) IH Hstep).
Qed.

(** X11.  [Run] returns only when the context is done, and the error it
    returns is always one of the context: the context's error, alone or
    behind "failed to acquire semaphore: ", or [context.Canceled].  No
    error of an item and no error of the storer is ever returned by
    [Run]. *)
Theorem Run_returns_for_context_only (s : State) (r : option Error) :
  reachable env s -> pc s = Returned r ->
  exists e,
    ctxErr s = Some e /\
    (r = Some (String.append "failed to acquire semaphore: " e) \/
     r = Some Canceled \/ r = Some e).
Proof.
  intros Hreach Hpc. pose proof (reachable_returnedForContext s Hreach) as Hret.
  unfold returnedForContext in Hret. rewrite Hpc in Hret. exact Hret.
Qed.

(** X12.  The deferred [sem.Release(1)] of a goroutine never releases more
    than is held: whenever a goroutine has reached it, at least one unit is
    held, the goroutine can finish, and it gives back exactly one unit. *)
Theorem Run_release_within_held (s : State) (g1 g2 : list Worker) :
  reachable env s -> goroutines s = g1 ++ AtRelease :: g2 ->
  1 <= semCur s /\
  exists s', step env s s' /\ goroutines s' = g1 ++ g2 /\ S (semCur s') = semCur s /\
             pc s' = pc s /\ wErr s' = wErr s /\ input s' = input s.
Proof.
  intros Hreach Hg. pose proof (reachable_accounted env s Hreach) as [Hcap Hpc].
  assert (Hheld : 1 <= semCur s).
  { rewrite Hg in Hpc. destruct (pc s) as [| | |[err|]]; lengths; contradiction. }
  split; [exact Hheld|].
  destruct s as [c i cl n e p g w]. cbn [semCur goroutines pc wErr input] in *. subst g.
  destruct n as [|n]; [lia|].
  eexists. split; [apply worker_release|]. cbn. auto.
Qed.

Lemma storedForced_processGit ctx repoInfo w :
  Preparation.Type_ repoInfo = Shared.Git ->
  storedForced w -> storedForced (snd (processGit env ctx repoInfo w)).
Proof.
  unfold storedForced. intros Hgit Hw.
  destruct (CopyFromBucket env ctx (Preparation.Name repoInfo)) as [repoDir|e] eqn:Hcopy;
    [|unfold processGit; now rewrite Hcopy].
  rewrite (processGit_copied env ctx repoInfo w repoDir Hcopy).
  destruct (PlainOpen env repoDir); [cbn [snd]; now rewrite stored_removeRepoDir|].
  destruct (Worktree env repoDir); [cbn [snd]; now rewrite stored_removeRepoDir|].
  destruct (Checkout env repoDir _) as [tree|]; [|cbn [snd]; now rewrite stored_removeRepoDir].
  destruct (Filepath.Walk repoDir tree _ []) as [frs|];
    cbn [snd]; rewrite stored_removeRepoDir; [|exact Hw].
  cbn [callStore stored]. apply Forall_app. split; [exact Hw|].
  constructor; [|constructor]. cbn. auto.
Qed.

Lemma storedForced_step (s s' : State) :
  storedForced (world s) -> step env s s' -> storedForced (world s').
Proof.
  intros Hw Hstep. destruct Hstep; cbn [world] in *; try exact Hw.
  unfold workerBody. destruct (Preparation.Type_ repoInfo) eqn:Hgit; [|exact Hw].
  now apply storedForced_processGit.
Qed.

(** X13.  Whatever a run hands to the storer belongs to an item of kind git
    and carries that item with [Force] set: an item of another kind is
    never stored, and an item is never stored as it was enqueued when its
    [Force] was unset.  What has been stored stays stored: a step of the
    run only adds to it. *)
Theorem Run_stores_forced_git_items (s : State) :
  reachable env s ->
  Forall (fun entry => Preparation.Type_ (fst entry) = Shared.Git /\
                       Git.Force (Preparation.CheckoutOptions (fst entry)) = true)
         (stored (world s)) /\
  forall s', step env s s' ->
    exists more, stored (world s') = stored (world s) ++ more /\ List.length more <= 1.
Proof.
  intros Hreach. split.
  - induction Hreach as [|s s' _ IH Hstep]; [constructor|].
    exact (storedForced_step s s' IH Hstep).
  - intros s' Hstep.
    destruct Hstep; cbn [world] in *;
      try (exists []; split; [now rewrite app_nil_r | simpl; lia]).
    unfold workerBody. destruct (Preparation.Type_ repoInfo);
      [|exists []; split; [now rewrite app_nil_r | simpl; lia]].
    destruct (CopyFromBucket env c (Preparation.Name repoInfo)) as [repoDir|e0] eqn:Hcopy;
      [|unfold processGit; rewrite Hcopy; exists []; split;
        [now rewrite app_nil_r | simpl; lia]].
    rewrite (processGit_copied env c repoInfo w repoDir Hcopy).
    destruct (PlainOpen env repoDir);
      [cbn [snd]; rewrite stored_removeRepoDir; exists []; split;
        [now rewrite app_nil_r | simpl; lia]|].
    destruct (Worktree env repoDir);
      [cbn [snd]; rewrite stored_removeRepoDir; exists []; split;
        [now rewrite app_nil_r | simpl; lia]|].
    destruct (Checkout env repoDir _) as [tree|];
      [|cbn [snd]; rewrite stored_removeRepoDir; exists []; split;
        [now rewrite app_nil_r | simpl; lia]].
    destruct (Filepath.Walk repoDir tree _ []) as [frs|];
      cbn [snd]; rewrite stored_removeRepoDir;
      [|exists []; split; [now rewrite app_nil_r | simpl; lia]].
    eexists. split; [reflexivity | simpl; lia].
Qed.

End RunMore.

Section RunMoreSamples.

Import Processing.

Example returnedCanceled_reachable : reachable Sample.env returnedCanceled.
Proof.
  exact (reachable_step _ _ _ drainingCanceled_reachable
           (run_drain_failed _ Canceled [] true 2 [] [AtBody gitItem] emptyWorld)).
Qed.

Example itemStored_reachable : reachable Sample.env itemStored.
Proof.
  pose proof (reachable_initial Sample.env) as H0.
  pose proof (reachable_step _ _ _ H0
    (producer_send _ None [] 0 [] AtAcquire [] emptyWorld gitItem)) as H1.
  pose proof (reachable_step _ _ _ H1
    (run_acquire _ None [gitItem] false 0 [] [] emptyWorld ltac:(unfold workers; lia))) as H2.
  pose proof (reachable_step _ _ _ H2
    (run_receive _ None gitItem [] false 1 [] [] emptyWorld)) as H3.
  pose proof (reachable_step _ _ _ H3
    (run_acquire _ None [] false 1 [] [AtBody gitItem] emptyWorld
       ltac:(unfold workers; lia))) as H4.
  exact (reachable_step _ _ _ H4
    (worker_body _ None [] false 2 [] AtSelect [] gitItem [] emptyWorld)).
Qed.

(** X11 in the sample run that was cancelled. *)
Lemma Run_returns_for_context_only_sample :
  reachable Sample.env returnedCanceled /\
  exists e,
    ctxErr returnedCanceled = Some e /\
    (Some Canceled = Some (String.append "failed to acquire semaphore: " e) \/
     Some Canceled = Some Canceled \/ Some Canceled = Some e).
Proof.
  split; [exact returnedCanceled_reachable|].
  exact (Run_returns_for_context_only Sample.env returnedCanceled (Some Canceled)
           returnedCanceled_reachable eq_refl).
Defined.

(** X12 in the sample run, for the goroutine of the failed item. *)
Lemma Run_release_within_held_sample :
  1 <= semCur errorPending /\
  exists s', step Sample.env errorPending s' /\ goroutines s' = [] ++ [] /\
             S (semCur s') = semCur errorPending /\
             pc s' = pc errorPending /\ wErr s' = wErr errorPending /\
             input s' = input errorPending.
Proof.
  exact (Run_release_within_held Sample.env errorPending [] []
           errorPending_reachable eq_refl).
Defined.

(** X13 in the sample run, after the git item has been stored. *)
Lemma Run_stores_forced_git_items_sample :
  reachable Sample.env itemStored /\
  List.length (stored (world itemStored)) = 1 /\
  Forall (fun entry => Preparation.Type_ (fst entry) = Shared.Git /\
                       Git.Force (Preparation.CheckoutOptions (fst entry)) = true)
         (stored (world itemStored)).
Proof.
  split; [exact itemStored_reachable|]. split; [reflexivity|].
  exact (proj1 (Run_stores_forced_git_items Sample.env itemStored itemStored_reachable)).
Defined.

End RunMoreSamples.

(** ** The read failure in a sample run *)

Section ReadFailureSample.

Import Filepath Processing.

Example readFailurePending_reachable :
  reachable (Sample.envWith Sample.readDenied) readFailurePending.
Proof.
  pose proof (reachable_initial (Sample.envWith Sample.readDenied)) as H0.
  pose proof (reachable_step _ _ _ H0
    (producer_send _ None [] 0 [] AtAcquire [] emptyWorld unreadableItem)) as H1.
  pose proof (reachable_step _ _ _ H1
    (run_acquire _ None [unreadableItem] false 0 [] [] emptyWorld
       ltac:(unfold workers; lia))) as H2.
  pose proof (reachable_step _ _ _ H2
    (run_receive _ None unreadableItem [] false 1 [] [] emptyWorld)) as H3.
  pose proof (reachable_step _ _ _ H3
    (run_acquire _ None [] false 1 [] [AtBody unreadableItem] emptyWorld
       ltac:(unfold workers; lia))) as H4.
  exact (reachable_step _ _ _ H4
    (producer_send _ None [] 2 [] AtSelect [AtBody unreadableItem] emptyWorld healthyItem)).
Qed.

(** The healthy item alone is stored. *)
Example healthyItem_is_stored :
  fst (fst (processGit (Sample.envWith Sample.readDenied) None healthyItem emptyWorld)) = None.
Proof. reflexivity. Qed.

(** C7 in the sample run: nothing of the failing item is stored, and once
    its error has been taken at the [select] the healthy item stays in the
    input for good. *)
Lemma read_failure_stores_nothing_ends_admission_sample :
  reachable (Sample.envWith Sample.readDenied) readFailurePending /\
  exists e' w',
    processGit (Sample.envWith Sample.readDenied) None unreadableItem emptyWorld =
      (Some e', checkedOut (Sample.envWith Sample.readDenied) "/tmp/abc"
                  (setForce true unreadableItem), w') /\
    stored w' = stored emptyWorld /\
    steps (Sample.envWith Sample.readDenied) readFailurePending
      (St None [healthyItem] false 2 [] AtDrain [AtRelease]
          (logErrorf (String.append "worker returned an error: " e') w')) /\
    forall s'',
      steps (Sample.envWith Sample.readDenied)
        (St None [healthyItem] false 2 [] AtDrain [AtRelease]
            (logErrorf (String.append "worker returned an error: " e') w')) s'' ->
      (pc s'' = AtDrain \/ exists r, pc s'' = Returned r) /\
      (exists more, input s'' = [healthyItem] ++ more) /\
      List.length (goroutines s'') <= 1.
Proof.
  split; [exact readFailurePending_reachable|].
  destruct (read_failure_stores_nothing_ends_admission
              (Sample.envWith Sample.readDenied) None unreadableItem emptyWorld
              "/tmp/abc" Sample.tree "/tmp/abc/sub/c.h" (Lstat (File "c.h"))
              "permission denied" eq_refl eq_refl eq_refl eq_refl eq_refl)
    as [e' [w' [Hrun [Hstored Hpool]]]].
  - simpl. auto 10.
  - reflexivity.
  - simpl. auto.
  - reflexivity.
  - exists e', w'. split; [exact Hrun | split; [exact Hstored|]].
    exact (Hpool [healthyItem] false 2 [] []).
Defined.

End ReadFailureSample.
